(** * Sprite2Beads: the palette nearest-colour matching engine

    A shallow embedding of [BeadColor] and [BeadPalette] from
    [Sprite2Beads.py], and the properties of its three colour distances
    and of the linear-scan matcher.

    Modelling conventions.
    - A Python [int] is a [Z]; a Python [float] is idealised as a real
      number ([R]): rounding of IEEE binary64 is not modelled, and
      [float('inf')] is a constructor of its own ([PosInf]).
    - A Python [str] is a [string] of 8-bit characters (code points
      below 256). [str.upper] is modelled on the ASCII letters: the
      dispatch of [get_distance] only compares its result with three
      ASCII literals, and among the strings of code points below 256
      only their ASCII case variants are mapped to these literals.
    - Exceptions are values of [exn]; a method of [BeadColor] is a
      function from the object's state to an [outcome]: the value or the
      exception, the object's state afterwards, and the calls made to the
      two conversion helpers (in order).
    - [BeadPalette.palette] is a [list BeadColor]; a reference to one of
      its objects is its index in that list. *)

From Stdlib Require Import ZArith Reals Lra Lia Bool Ascii String.
From Stdlib Require Import DecimalString DecimalPos DecimalZ.
From stdpp Require Import base list.

Open Scope Z_scope.

(** ** Exceptions and outcomes *)

Inductive exn : Set :=
| ValueError
| ZeroDivisionError.

(** An RGB triple, as the tuple [(r, g, b)] of Python integers. *)
Definition RGB : Type := Z * Z * Z.

(** The list [[a, b, c]] of three floats the conversion helpers return. *)
Definition triple : Type := R * R * R.

(** A call of one of the two conversion helpers, with its argument. *)
Inductive call : Type :=
| Call_rgb2yuv (arg : RGB)
| Call_rgb2hsv (arg : RGB).

Record BeadColor : Type := mkBeadColor {
  name : string;
  rgb : RGB;
  yuv : option triple;
  hsv : option triple
}.

(** [BeadColor.__init__]: both caches start as [None]. *)
Definition BeadColor__init__ (name : string) (rgb : RGB) : BeadColor :=
  {| name := name; rgb := rgb; yuv := None; hsv := None |}.

Definition set_yuv (self : BeadColor) (v : triple) : BeadColor :=
  {| name := name self; rgb := rgb self; yuv := Some v; hsv := hsv self |}.

Definition set_hsv (self : BeadColor) (v : triple) : BeadColor :=
  {| name := name self; rgb := rgb self; yuv := yuv self; hsv := Some v |}.

Record outcome (S A : Type) : Type := Outcome {
  value : exn + A;
  final : S;
  calls : list call
}.
Arguments Outcome {S A} _ _ _.
Arguments value {S A} _.
Arguments final {S A} _.
Arguments calls {S A} _.

(** A method body of [BeadColor]: state of [self] in, outcome out. *)
Definition M (A : Type) : Type := BeadColor -> outcome BeadColor A.

#[global] Instance M_ret : MRet M :=
  fun A (a : A) self => Outcome (inr a) self [].

#[global] Instance M_bind : MBind M :=
  fun A B (f : A -> M B) (m : M A) self =>
    let o := m self in
    match value o with
    | inl e => Outcome (inl e) (final o) (calls o)
    | inr a =>
        let o' := f a (final o) in
        Outcome (value o') (final o') (calls o ++ calls o')
    end.

Definition raise {A} (e : exn) : M A := fun self => Outcome (inl e) self [].

(** Reads the object ([self.f] for its fields). *)
Definition get_self : M BeadColor := fun self => Outcome (inr self) self [].

(** Replaces the object's state (an assignment to one of its fields). *)
Definition put_self (s : BeadColor) : M unit := fun _ => Outcome (inr tt) s [].

(** The result of a helper that raises or returns, with the call recorded. *)
Definition invoke {A} (c : call) (r : exn + A) : M A :=
  fun self => Outcome r self [c].

(** The result of a library function that raises or returns. *)
Definition lift {A} (r : exn + A) : M A := fun self => Outcome r self [].

(** ** Library functions the source calls *)

(** [math.sqrt]: raises [ValueError] (math domain error) below zero. *)
Definition math_sqrt (x : R) : exn + R :=
  if Rlt_dec x 0 then inl ValueError else inr (sqrt x).

(** Python's float [x % 1.0]: the fractional part, in [[0, 1)]. *)
Definition fmod1 (x : R) : R := (x - IZR (Int_part x))%R.

(** [colorsys.rgb_to_hsv], as the Python standard library defines it. *)
Definition colorsys_rgb_to_hsv (r g b : R) : exn + triple :=
  let maxc := Rmax (Rmax r g) b in
  let minc := Rmin (Rmin r g) b in
  let rangec := (maxc - minc)%R in
  let v := maxc in
  if Req_dec_T minc maxc then inr (0, 0, v)%R
  else if Req_dec_T maxc 0 then inl ZeroDivisionError
  else
    let s := (rangec / maxc)%R in
    let rc := ((maxc - r) / rangec)%R in
    let gc := ((maxc - g) / rangec)%R in
    let bc := ((maxc - b) / rangec)%R in
    let h := if Req_dec_T r maxc then (bc - gc)%R
             else if Req_dec_T g maxc then (2 + rc - bc)%R
             else (4 + gc - rc)%R in
    let h := fmod1 (h / 6) in
    inr (h, s, v).

(** [str.upper] on the ASCII letters. *)
Definition upper_ascii (c : ascii) : ascii :=
  let n := nat_of_ascii c in
  if (97 <=? n)%nat && (n <=? 122)%nat then ascii_of_nat (n - 32) else c.

Fixpoint upper (s : string) : string :=
  match s with
  | EmptyString => EmptyString
  | String c s' => String (upper_ascii c) (upper s')
  end.

(** [ImageColor.getrgb] on the two colour names the source passes. *)
Definition Black : RGB := (0, 0, 0).
Definition White : RGB := (255, 255, 255).

(** ** BeadColor *)

Definition __rgb2yuv (rgb : RGB) : triple :=
  let '(r, g, b) := rgb in
  let y := (0.299 * IZR r + 0.587 * IZR g + 0.114 * IZR b)%R in
  let u := (0.492 * (IZR b - y))%R in
  let v := (0.877 * (IZR r - y))%R in
  (y, u, v).

Definition __rgb2hsv (rgb : RGB) : exn + triple :=
  let '(r, g, b) := rgb in
  match colorsys_rgb_to_hsv (IZR r / 255) (IZR g / 255) (IZR b / 255) with
  | inl e => inl e
  | inr (h, s, v) => inr (h * 360, s, v)%R
  end.

Definition __distance_rgb (rgbq : RGB) : M R :=
  self ← get_self;
  let '(r1, g1, b1) := rgb self in
  let '(r2, g2, b2) := rgbq in
  let rmean := (IZR r1 + IZR r2 / 2)%R in
  let '(dr, dg, db) := ((r1 - r2) ^ 2, (g1 - g2) ^ 2, (b1 - b2) ^ 2) in
  lift (math_sqrt (((2 + rmean / 256) * IZR dr) + (4 * IZR dg)
                   + ((2 + (255 - rmean) / 256) * IZR db))%R).

Definition __distance_yuv (rgbq : RGB) : M R :=
  self ← get_self;
  '(y1, u1, v1) ← match yuv self with
                  | None =>
                      v ← invoke (Call_rgb2yuv (rgb self))
                                 (inr (__rgb2yuv (rgb self)));
                      put_self (set_yuv self v);;
                      mret v
                  | Some v => mret v
                  end;
  '(y2, u2, v2) ← invoke (Call_rgb2yuv rgbq) (inr (__rgb2yuv rgbq));
  lift (math_sqrt ((y1 - y2) ^ 2 + (u1 - u2) ^ 2 + (v1 - v2) ^ 2)%R).

Definition __distance_hsv (rgbq : RGB) : M R :=
  self ← get_self;
  '(h1, s1, v1) ← match hsv self with
                  | None =>
                      v ← invoke (Call_rgb2hsv (rgb self))
                                 (__rgb2hsv (rgb self));
                      put_self (set_hsv self v);;
                      mret v
                  | Some v => mret v
                  end;
  '(h2, s2, v2) ← invoke (Call_rgb2hsv rgbq) (__rgb2hsv rgbq);
  let dh := (Rmin (Rabs (h2 - h1)) (360 - Rabs (h2 - h1)) / 180)%R in
  let ds := Rabs (s2 - s1) in
  let dv := Rabs (v2 - v1) in
  lift (math_sqrt (dh * dh + ds * ds + dv * dv)%R).

Definition get_distance (color_space : string) (rgbq : RGB) : M R :=
  let tag := upper color_space in
  if String.eqb tag "RGB" then __distance_rgb rgbq
  else if String.eqb tag "YUV" then __distance_yuv rgbq
  else if String.eqb tag "HSV" then __distance_hsv rgbq
  else raise ValueError.

Definition get_textcolor (self : BeadColor) : RGB :=
  let '(r, g, b) := rgb self in
  if 128 * 3 <? r + g + b then Black else White.

(** ** BeadPalette *)

(** The running minimum of [get_closest]: [float('inf')] or a distance. *)
Inductive bound : Type :=
| PosInf
| Fin (d : R).

(** [distance < min_distance]. *)
Definition lt_bound (distance : R) (min_distance : bound) : bool :=
  match min_distance with
  | PosInf => true
  | Fin m => if Rlt_dec distance m then true else false
  end.

(** [self.palette], the one field of a [BeadPalette]. *)
Abbreviation BeadPalette := (list BeadColor).

Definition BeadPalette__init__ : BeadPalette := [].

Definition add (self : BeadPalette) (color : BeadColor) : BeadPalette :=
  self ++ [color].

(** The loop of [get_closest] over the objects not yet visited, the next
    one having index [i]. An exception of [get_distance] leaves the loop;
    the objects visited so far keep what the calls wrote to them. *)
Fixpoint get_closest_loop (color_space : string) (rgbq : RGB)
    (todo : list BeadColor) (i : nat)
    (min_distance : bound) (best_color : option nat)
  : outcome (list BeadColor) (option nat) :=
  match todo with
  | [] => Outcome (inr best_color) [] []
  | color :: todo' =>
      let o := get_distance color_space rgbq color in
      match value o with
      | inl e => Outcome (inl e) (final o :: todo') (calls o)
      | inr distance =>
          let '(min_distance, best_color) :=
            if lt_bound distance min_distance
            then (Fin distance, Some i)
            else (min_distance, best_color) in
          let o' := get_closest_loop color_space rgbq todo' (S i)
                      min_distance best_color in
          Outcome (value o') (final o :: final o') (calls o ++ calls o')
      end
  end.

(** [BeadPalette.get_closest]: the index of the best object, or [None]. *)
Definition get_closest (color_space : string) (rgbq : RGB)
    (self : BeadPalette) : outcome BeadPalette (option nat) :=
  get_closest_loop color_space rgbq self 0 PosInf None.

(** ** main: the pixel loop *)

Definition IMAGE_UPSCALE : Z := 40.

(** [ImageColor.getrgb("black")]. *)
Definition GRID_COLOR : RGB := Black.

(** A pixel of an image in mode RGBA, as [getpixel] returns it. *)
Definition RGBA : Type := Z * Z * Z * Z.

(** The two calls [main] makes on the [ImageDraw] of the output image. *)
Inductive draw_call : Type :=
| rectangle (xy : (Z * Z) * (Z * Z)) (fill outline : RGB)
| text (xy : R * R) (label : string) (fill : RGB) (anchor : string).

(** What leaves the pixel loop: an exception of [get_closest], or the
    [AttributeError] of reading an attribute of [None]. *)
Inductive main_exn : Type :=
| Raised (e : exn)
| AttributeError.

(** The last two statements of the loop body, for the pixel [(x, y)]. *)
Definition draw_bead (x y : Z) (out_color : BeadColor) : list draw_call :=
  [rectangle ((x * IMAGE_UPSCALE, y * IMAGE_UPSCALE),
              (x * IMAGE_UPSCALE + IMAGE_UPSCALE,
               y * IMAGE_UPSCALE + IMAGE_UPSCALE))
             (rgb out_color) GRID_COLOR;
   text (IZR (x * IMAGE_UPSCALE) + IZR IMAGE_UPSCALE / 2,
         IZR (y * IMAGE_UPSCALE) + IZR IMAGE_UPSCALE / 2)%R
        (name out_color) (get_textcolor out_color) "mm"].

(** The state of the loop: [palette] ([None] without the option [-p])
    and the calls made on [draw] so far. *)
Definition loop_state : Type := option BeadPalette * list draw_call.

(** The body of the inner loop at the pixel [(x, y)]. *)
Definition pixel (color : string) (getpixel : nat -> nat -> RGBA)
    (y x : nat) (s : loop_state) : option main_exn * loop_state :=
  let '(r, g, b, a) := getpixel x y in
  if a =? 0 then (None, s)
  else
    let in_color := (r, g, b) in
    match s.1 with
    | Some palette =>
        let o := get_closest color in_color palette in
        match value o with
        | inl e => (Some (Raised e), (Some (final o), s.2))
        | inr best =>
            (* the object [out_color] refers to, [None] for [None] *)
            match best ≫= (fun i => final o !! i) with
            | None => (Some AttributeError, (Some (final o), s.2))
            | Some out_color =>
                (None,
                 (Some (final o),
                  s.2 ++ draw_bead (Z.of_nat x) (Z.of_nat y) out_color))
            end
        end
    | None =>
        let out_color := BeadColor__init__ "" in_color in
        (None, (None, s.2 ++ draw_bead (Z.of_nat x) (Z.of_nat y) out_color))
    end.

(** A [for] loop over [l] that an exception leaves. *)
Fixpoint for_each {A : Type} (l : list A)
    (body : A -> loop_state -> option main_exn * loop_state)
    (s : loop_state) : option main_exn * loop_state :=
  match l with
  | [] => (None, s)
  | a :: l' =>
      match body a s with
      | (Some e, s') => (Some e, s')
      | (None, s') => for_each l' body s'
      end
  end.

(** The two nested loops of [main] over an image of the given size. *)
Definition main_loop (color : string) (width height : nat)
    (getpixel : nat -> nat -> RGBA) (palette : option BeadPalette)
  : option main_exn * loop_state :=
  for_each (seq 0 height)
    (fun y => for_each (seq 0 width) (fun x => pixel color getpixel y x))
    (palette, []).

(** [str.lower] on code points below 256: the ASCII capitals and the
    Latin-1 capitals (192 to 222 but for the multiplication sign). *)
Definition lower_ascii (c : ascii) : ascii :=
  let n := nat_of_ascii c in
  if ((65 <=? n)%nat && (n <=? 90)%nat)
     || ((192 <=? n)%nat && (n <=? 214)%nat)
     || ((216 <=? n)%nat && (n <=? 222)%nat)
  then ascii_of_nat (n + 32) else c.

Fixpoint lower (s : string) : string :=
  match s with
  | EmptyString => EmptyString
  | String c s' => String (lower_ascii c) (lower s')
  end.

(** The name [main] saves the output under, [splitext] being the pair
    [os.path.splitext(args.image)]. *)
Definition output_filename (splitext : string * string)
    (palette : option BeadPalette) (color : string) : string :=
  let suffix :=
    match palette with None => "big" | Some _ => "bead" end%string in
  (splitext.1 ++ "_" ++ suffix ++ "_" ++ lower color ++ splitext.2)%string.

(** ** load_color_palette *)

(** [str.isspace], for code points below 256. *)
Definition isspace (c : ascii) : bool :=
  let n := nat_of_ascii c in
  ((9 <=? n)%nat && (n <=? 13)%nat) || ((28 <=? n)%nat && (n <=? 32)%nat)
  || (n =? 133)%nat || (n =? 160)%nat.

(** The white space [int] skips at both ends, for code points below 256. *)
Definition int_space (c : ascii) : bool :=
  let n := nat_of_ascii c in
  ((9 <=? n)%nat && (n <=? 13)%nat) || (n =? 32)%nat
  || (n =? 133)%nat || (n =? 160)%nat.

Definition isdigit (c : ascii) : bool :=
  let n := nat_of_ascii c in (48 <=? n)%nat && (n <=? 57)%nat.

Definition digit (c : ascii) : Z := Z.of_nat (nat_of_ascii c) - 48.

Fixpoint lstrip (f : ascii -> bool) (s : string) : string :=
  match s with
  | EmptyString => EmptyString
  | String c s' => if f c then lstrip f s' else s
  end.

Fixpoint rstrip (f : ascii -> bool) (s : string) : string :=
  match s with
  | EmptyString => EmptyString
  | String c s' =>
      match rstrip f s' with
      | EmptyString => if f c then EmptyString else String c EmptyString
      | t => String c t
      end
  end.

(** [s.split(sep)[0]]: what comes before the first [sep]. *)
Fixpoint before (sep : ascii) (s : string) : string :=
  match s with
  | EmptyString => EmptyString
  | String c s' =>
      if Ascii.eqb c sep then EmptyString else String c (before sep s')
  end.

(** [s.split(sep)], for a separator of one character. *)
Fixpoint split (sep : ascii) (s : string) : list string :=
  match s with
  | EmptyString => [EmptyString]
  | String c s' =>
      if Ascii.eqb c sep then EmptyString :: split sep s'
      else match split sep s' with
           | w :: ws => String c w :: ws
           | [] => [String c EmptyString]
           end
  end.

(** The digits of a decimal literal after a first digit, single
    underscores allowed between digits: the value and the number of
    digits, or [None] where the literal is malformed. *)
Fixpoint int_digits (s : string) (acc : Z) (n : nat) : option (Z * nat) :=
  match s with
  | EmptyString => Some (acc, n)
  | String c s' =>
      if isdigit c then int_digits s' (10 * acc + digit c) (S n)
      else if Ascii.eqb c "_" then
        match s' with
        | String d s'' =>
            if isdigit d then int_digits s'' (10 * acc + digit d) (S n)
            else None
        | EmptyString => None
        end
      else None
  end.

(** [int(x)] for a string [x], in base ten; [max_str_digits] is
    [sys.get_int_max_str_digits()], 0 where there is no limit. *)
Definition int (max_str_digits : nat) (x : string) : exn + Z :=
  let s := rstrip int_space (lstrip int_space x) in
  let '(negative, body) :=
    match s with
    | String "-" t => (true, t)
    | String "+" t => (false, t)
    | _ => (false, s)
    end in
  match body with
  | EmptyString => inl ValueError
  | String c body' =>
      if isdigit c then
        match int_digits body' (digit c) 1 with
        | None => inl ValueError
        | Some (v, n) =>
            if (640 <? n)%nat && (0 <? max_str_digits)%nat
               && (max_str_digits <? n)%nat
            then inl ValueError
            else inr (if negative then - v else v)
        end
      else inl ValueError
  end.

(** [tuple(int(x) for x in fields)]: the first failure raises. *)
Fixpoint tuple_int (max_str_digits : nat) (fields : list string)
  : exn + list Z :=
  match fields with
  | [] => inr []
  | x :: fields' =>
      match int max_str_digits x with
      | inl e => inl e
      | inr z =>
          match tuple_int max_str_digits fields' with
          | inl e => inl e
          | inr zs => inr (z :: zs)
          end
      end
  end.

(** The tuple [rgb] of line 95, from the value [config['Palette'][key]]. *)
Definition rgb_of_value (max_str_digits : nat) (v : string) : exn + list Z :=
  tuple_int max_str_digits (split "," (rstrip isspace (before "#" v))).

(** A [BeadColor] as [load_color_palette] constructs it: its name and its
    tuple, which nothing checks to have three components. *)
Definition loaded : Type := string * list Z.

(** The loop of [load_color_palette] over the items of [config['Palette']]
    (each key with its value), [palette] holding the beads added so far. *)
Fixpoint load_loop (max_str_digits : nat) (items : list (string * string))
    (palette : list loaded) : exn + list loaded :=
  match items with
  | [] => inr palette
  | (key, v) :: items' =>
      match rgb_of_value max_str_digits v with
      | inl e => inl e
      | inr rgb => load_loop max_str_digits items' (palette ++ [(key, rgb)])
      end
  end.

Definition load_color_palette (max_str_digits : nat)
    (items : list (string * string)) : exn + list loaded :=
  load_loop max_str_digits items [].

(** The loaded bead as a [BeadColor], when its tuple has three components. *)
Definition bead (l : loaded) : option BeadColor :=
  match l.2 with
  | [r; g; b] => Some (BeadColor__init__ l.1 (r, g, b))
  | _ => None
  end.

(** ** Domains and invariants *)

(** The components of an [RGBColor] lie in [[0, 255]]. *)
Definition in_range (c : RGB) : Prop :=
  let '(r, g, b) := c in
  (0 <= r <= 255) /\ (0 <= g <= 255) /\ (0 <= b <= 255).

(** A colour-space tag that [get_distance] accepts. *)
Definition valid_tag (color_space : string) : Prop :=
  upper color_space = "RGB"%string \/ upper color_space = "YUV"%string
  \/ upper color_space = "HSV"%string.

(** What a cache holds, when it holds something, is the conversion of the
    object's own colour. *)
Definition cache_ok (c : BeadColor) : Prop :=
  (forall v, yuv c = Some v -> v = __rgb2yuv (rgb c)) /\
  (forall v, hsv c = Some v -> __rgb2hsv (rgb c) = inr v).

(** A palette entry as the data model has it. *)
Definition entry_ok (c : BeadColor) : Prop := in_range (rgb c) /\ cache_ok c.

(** ** The distances in the spec's words *)

Module Spec.

Definition rmean (a b : RGB) : R := (IZR a.1.1 + IZR b.1.1 / 2)%R.

Definition weight_r (a b : RGB) : R := (2 + rmean a b / 256)%R.

Definition weight_b (a b : RGB) : R := (2 + (255 - rmean a b) / 256)%R.

Definition radicandRGB (a b : RGB) : R :=
  (weight_r a b * (IZR a.1.1 - IZR b.1.1) ^ 2
   + 4 * (IZR a.1.2 - IZR b.1.2) ^ 2
   + weight_b a b * (IZR a.2 - IZR b.2) ^ 2)%R.

Definition distanceRGB (a b : RGB) : R := sqrt (radicandRGB a b).

(** The conventional redmean, with the true mean of the two reds. *)
Definition true_mean (a b : RGB) : R := ((IZR a.1.1 + IZR b.1.1) / 2)%R.

Definition distanceYUV (a b : RGB) : R :=
  let '(y1, u1, v1) := __rgb2yuv a in
  let '(y2, u2, v2) := __rgb2yuv b in
  sqrt ((y1 - y2) ^ 2 + (u1 - u2) ^ 2 + (v1 - v2) ^ 2)%R.

(** The circular difference of two hues, in degrees. *)
Definition hue_difference (h1 h2 : R) : R :=
  Rmin (Rabs (h2 - h1)) (360 - Rabs (h2 - h1)).

Definition distanceHSV_of (t1 t2 : triple) : R :=
  let '(h1, s1, v1) := t1 in
  let '(h2, s2, v2) := t2 in
  let dh := (hue_difference h1 h2 / 180)%R in
  let ds := Rabs (s2 - s1) in
  let dv := Rabs (v2 - v1) in
  sqrt (dh ^ 2 + ds ^ 2 + dv ^ 2)%R.

End Spec.

(** ** Definitions for the statements *)

(** The value a query returns, as a function of the object's colour alone:
    what a freshly built object returns. *)
Definition fresh_value (cs : string) (a q : RGB) : exn + R :=
  value (get_distance cs q (BeadColor__init__ "" a)).

(** The calls [__distance_yuv] makes: the object's own conversion only
    while the cache is empty, the query's always. *)
Definition yuv_calls (c : BeadColor) (q : RGB) : list call :=
  match yuv c with
  | None => [Call_rgb2yuv (rgb c); Call_rgb2yuv q]
  | Some _ => [Call_rgb2yuv q]
  end.

Definition hsv_calls (c : BeadColor) (q : RGB) : list call :=
  match hsv c with
  | None => [Call_rgb2hsv (rgb c); Call_rgb2hsv q]
  | Some _ => [Call_rgb2hsv q]
  end.

(** The object's own conversions still to come: one while the cache is
    empty and a query of that space is made, none afterwards. *)
Definition pending (cache : option triple) (n : nat) : nat :=
  match cache with None => Nat.min 1 n | Some _ => 0%nat end.

(** A caller's sequence of queries against one object, each a tag and a
    colour. An exception of a query is the caller's to handle; the next
    query finds the object as the previous one left it. The result is the
    object after the last query and the conversion calls of all of them. *)
Fixpoint queries (qs : list (string * RGB)) (c : BeadColor)
  : BeadColor * list call :=
  match qs with
  | [] => (c, [])
  | (cs, q) :: qs' =>
      let o := get_distance cs q c in
      let r := queries qs' (final o) in
      (r.1, calls o ++ r.2)
  end.

Fixpoint count {A : Type} (f : A -> bool) (l : list A) : nat :=
  match l with
  | [] => 0
  | x :: l' => (if f x then 1 else 0) + count f l'
  end.

Definition is_rgb2yuv (k : call) : bool :=
  match k with Call_rgb2yuv _ => true | Call_rgb2hsv _ => false end.

Definition is_rgb2hsv (k : call) : bool :=
  match k with Call_rgb2yuv _ => false | Call_rgb2hsv _ => true end.

(** The queries of a sequence that select the metric [t]. *)
Definition has_tag (t : string) (x : string * RGB) : bool :=
  String.eqb (upper x.1) t.



(** The pixels of an image in the order [main] visits them. *)
Definition coords (width height : nat) : list (nat * nat) :=
  y ← seq 0 height; x ← seq 0 width; [(x, y)].

(** The pixels that are not fully transparent, in that order. *)
Definition opaque (width height : nat) (getpixel : nat -> nat -> RGBA)
  : list (nat * nat) :=
  List.filter (fun xy => negb ((getpixel xy.1 xy.2).2 =? 0)) (coords width height).

(** The entry [get_closest] answers with on [palette], if it answers. *)
Definition bead_of (palette : BeadPalette) (color : string) (q : RGB)
  : option BeadColor :=
  match value (get_closest color q palette) with
  | inr (Some i) => palette !! i
  | _ => None
  end.

(** The drawing calls for a list of pixels, each drawn as the bead [f]
    gives for its colour. *)
Definition cells (getpixel : nat -> nat -> RGBA) (f : RGB -> option BeadColor)
    (l : list (nat * nat)) : list draw_call :=
  xy ← l;
  match f (getpixel xy.1 xy.2).1 with
  | Some c => draw_bead (Z.of_nat xy.1) (Z.of_nat xy.2) c
  | None => []
  end.

(** Every character of [s] satisfies [f]. *)
Fixpoint all (f : ascii -> bool) (s : string) : bool :=
  match s with
  | EmptyString => true
  | String c s' => f c && all f s'
  end.

(** The decimal numeral of an integer, as [str] prints it. *)
Definition dec (z : Z) : string := NilZero.string_of_int (Z.to_int z).

(** A component as a palette file may spell it: the numeral with white
    space before and after. *)
Definition field (x : string * Z * string) : string :=
  (x.1.1 ++ dec x.1.2 ++ x.2)%string.





(** Two states of a palette: the same names and colours, entry by entry,
    and consistent caches. *)
Definition same_beads (p p' : list BeadColor) : Prop :=
  Forall2 (fun c c' => name c = name c' /\ rgb c = rgb c'
                       /\ cache_ok c /\ cache_ok c') p p'.

(** ** Example palettes and queries *)

Definition red_blue : BeadPalette :=
  add (add BeadPalette__init__ (BeadColor__init__ "red" (255, 0, 0)))
      (BeadColor__init__ "blue" (0, 0, 255)).


(** Three YUV queries and one HSV query against one entry, in mixed
    order with an RGB query and a query with an unknown tag. *)
Definition mixed_queries : list (string * RGB) :=
  [("yuv", (1, 2, 3)); ("rgb", (4, 5, 6)); ("YUV", (7, 8, 9));
   ("xyz", (0, 0, 0)); ("hsv", (6, 1, 0)); ("Yuv", (255, 255, 255))]%string.

(** An image of one opaque white pixel. *)
Definition one_white : nat -> nat -> RGBA := fun _ _ => (255, 255, 255, 255).

(** ** Evaluating the methods *)

Ltac run :=
  unfold get_distance, __distance_rgb, __distance_yuv, __distance_hsv,
    mbind, mret, M_bind, M_ret, get_self, put_self, invoke, lift, raise;
  simpl.

Lemma math_sqrt_ok (x : R) : (0 <= x)%R -> math_sqrt x = inr (sqrt x).
Proof.
  intros Hx. unfold math_sqrt. destruct (Rlt_dec x 0) as [Hlt|_]; [lra|reflexivity].
Qed.

Lemma math_sqrt_neg (x : R) : (x < 0)%R -> math_sqrt x = inl ValueError.
Proof.
  intros Hx. unfold math_sqrt. destruct (Rlt_dec x 0) as [_|Hge]; [reflexivity|lra].
Qed.

Lemma IZR_sq (x y : Z) : IZR ((x - y) ^ 2) = ((IZR x - IZR y) ^ 2)%R.
Proof. rewrite <- minus_IZR. symmetry. apply (pow_IZR (x - y) 2). Qed.

Lemma dispatch_rgb (cs : string) (q : RGB) :
  upper cs = "RGB"%string -> get_distance cs q = __distance_rgb q.
Proof. intros H. unfold get_distance. rewrite H. reflexivity. Qed.

Lemma dispatch_yuv (cs : string) (q : RGB) :
  upper cs = "YUV"%string -> get_distance cs q = __distance_yuv q.
Proof. intros H. unfold get_distance. rewrite H. reflexivity. Qed.

Lemma dispatch_hsv (cs : string) (q : RGB) :
  upper cs = "HSV"%string -> get_distance cs q = __distance_hsv q.
Proof. intros H. unfold get_distance. rewrite H. reflexivity. Qed.

Lemma dispatch_unknown (cs : string) (q : RGB) :
  ~ valid_tag cs -> get_distance cs q = raise ValueError.
Proof.
  intros H. unfold get_distance, valid_tag in *.
  destruct (String.eqb_spec (upper cs) "RGB"); [tauto|].
  destruct (String.eqb_spec (upper cs) "YUV"); [tauto|].
  destruct (String.eqb_spec (upper cs) "HSV"); [tauto|].
  reflexivity.
Qed.

(** [__distance_rgb] touches nothing and takes the square root of the
    spec's radicand. *)
Lemma distance_rgb_run (q : RGB) (c : BeadColor) :
  __distance_rgb q c = Outcome (math_sqrt (Spec.radicandRGB (rgb c) q)) c [].
Proof.
  destruct c as [n [[r1 g1] b1] y h], q as [[r2 g2] b2]. run.
  unfold Spec.radicandRGB, Spec.weight_r, Spec.weight_b, Spec.rmean. simpl.
  rewrite !IZR_sq. reflexivity.
Qed.

Lemma in_range_IZR (r g b : Z) :
  in_range (r, g, b) ->
  (0 <= IZR r <= 255 /\ 0 <= IZR g <= 255 /\ 0 <= IZR b <= 255)%R.
Proof.
  unfold in_range. intros (Hr & Hg & Hb).
  repeat split; try (apply (IZR_le 0); lia); apply (IZR_le _ 255); lia.
Qed.

Lemma weights_bounds (a b : RGB) :
  in_range a -> in_range b ->
  (0 <= Spec.rmean a b <= 382.5 /\ 2 <= Spec.weight_r a b
   /\ 1.5 < Spec.weight_b a b)%R.
Proof.
  destruct a as [[r1 g1] b1], b as [[r2 g2] b2]. intros Ha Hb.
  apply in_range_IZR in Ha, Hb.
  unfold Spec.weight_r, Spec.weight_b, Spec.rmean. simpl. lra.
Qed.

Lemma radicandRGB_nonneg (a b : RGB) :
  in_range a -> in_range b -> (0 <= Spec.radicandRGB a b)%R.
Proof.
  intros Ha Hb. destruct (weights_bounds a b Ha Hb) as (_ & Hwr & Hwb).
  unfold Spec.radicandRGB.
  pose proof (pow2_ge_0 (IZR a.1.1 - IZR b.1.1)).
  pose proof (pow2_ge_0 (IZR a.1.2 - IZR b.1.2)).
  pose proof (pow2_ge_0 (IZR a.2 - IZR b.2)).
  assert (0 <= Spec.weight_r a b * (IZR a.1.1 - IZR b.1.1) ^ 2)%R
    by (apply Rmult_le_pos; lra).
  assert (0 <= Spec.weight_b a b * (IZR a.2 - IZR b.2) ^ 2)%R
    by (apply Rmult_le_pos; lra).
  lra.
Qed.

Lemma sum_squares_nonneg (x y z : R) : (0 <= x ^ 2 + y ^ 2 + z ^ 2)%R.
Proof.
  pose proof (pow2_ge_0 x). pose proof (pow2_ge_0 y). pose proof (pow2_ge_0 z).
  lra.
Qed.

Lemma sum_products_nonneg (x y z : R) : (0 <= x * x + y * y + z * z)%R.
Proof. nra. Qed.

Lemma set_yuv_id (c : BeadColor) (v : triple) :
  yuv c = Some v -> set_yuv c v = c.
Proof. destruct c; simpl; intros ->; reflexivity. Qed.

Lemma set_hsv_id (c : BeadColor) (v : triple) :
  hsv c = Some v -> set_hsv c v = c.
Proof. destruct c; simpl; intros ->; reflexivity. Qed.

Lemma distance_yuv_run (q : RGB) (c : BeadColor) :
  cache_ok c ->
  __distance_yuv q c =
    Outcome (inr (Spec.distanceYUV (rgb c) q))
            (set_yuv c (__rgb2yuv (rgb c))) (yuv_calls c q).
Proof.
  intros [Hy _]. unfold yuv_calls, Spec.distanceYUV.
  destruct (yuv c) as [t|] eqn:E.
  - rewrite (Hy t eq_refl) in E. rewrite (set_yuv_id _ _ E).
    run. rewrite E. simpl.
    destruct (__rgb2yuv (rgb c)) as [[y1 u1] v1], (__rgb2yuv q) as [[y2 u2] v2].
    simpl. rewrite math_sqrt_ok by apply sum_squares_nonneg. reflexivity.
  - run. rewrite E. simpl.
    destruct (__rgb2yuv (rgb c)) as [[y1 u1] v1], (__rgb2yuv q) as [[y2 u2] v2].
    simpl. rewrite math_sqrt_ok by apply sum_squares_nonneg. reflexivity.
Qed.

Lemma distanceHSV_of_eq (h1 s1 v1 h2 s2 v2 : R) :
  let dh := (Rmin (Rabs (h2 - h1)) (360 - Rabs (h2 - h1)) / 180)%R in
  let ds := Rabs (s2 - s1) in
  let dv := Rabs (v2 - v1) in
  math_sqrt (dh * dh + ds * ds + dv * dv) =
    inr (Spec.distanceHSV_of (h1, s1, v1) (h2, s2, v2)).
Proof.
  intros dh ds dv. rewrite math_sqrt_ok by apply sum_products_nonneg.
  unfold Spec.distanceHSV_of, Spec.hue_difference. fold dh ds dv.
  do 2 f_equal. ring.
Qed.

Lemma distance_hsv_run (q : RGB) (c : BeadColor) (t1 t2 : triple) :
  cache_ok c ->
  __rgb2hsv (rgb c) = inr t1 -> __rgb2hsv q = inr t2 ->
  __distance_hsv q c =
    Outcome (inr (Spec.distanceHSV_of t1 t2)) (set_hsv c t1) (hsv_calls c q).
Proof.
  intros [_ Hh] H1 H2. unfold hsv_calls.
  destruct t1 as [[h1 s1] v1], t2 as [[h2 s2] v2].
  destruct (hsv c) as [t|] eqn:E.
  - pose proof (Hh t eq_refl) as Ht. rewrite H1 in Ht. injection Ht as <-.
    rewrite (set_hsv_id _ _ E).
    run. rewrite E, H2. simpl. rewrite distanceHSV_of_eq. reflexivity.
  - run. rewrite E, H1, H2. simpl. rewrite distanceHSV_of_eq. reflexivity.
Qed.

(** On colours in range [colorsys.rgb_to_hsv] never divides by zero. *)
Lemma rgb2hsv_total (a : RGB) :
  in_range a -> exists t, __rgb2hsv a = inr t.
Proof.
  destruct a as [[r g] b]. intros Ha. apply in_range_IZR in Ha.
  unfold __rgb2hsv, colorsys_rgb_to_hsv.
  set (x := (IZR r / 255)%R). set (y := (IZR g / 255)%R).
  set (z := (IZR b / 255)%R).
  assert (0 <= x /\ 0 <= y /\ 0 <= z)%R as (Hx & Hy & Hz)
    by (unfold x, y, z; lra).
  destruct (Req_dec_T (Rmin (Rmin x y) z) (Rmax (Rmax x y) z)) as [|Hne];
    [eauto|].
  destruct (Req_dec_T (Rmax (Rmax x y) z) 0) as [Hz0|]; [|eauto].
  exfalso. apply Hne. revert Hz0.
  unfold Rmax, Rmin. repeat destruct Rle_dec; lra.
Qed.

Lemma cache_ok_init (n : string) (a : RGB) : cache_ok (BeadColor__init__ n a).
Proof. split; intros v; discriminate. Qed.

Lemma tag_cases (cs : string) :
  upper cs = "RGB"%string \/ upper cs = "YUV"%string
  \/ upper cs = "HSV"%string \/ ~ valid_tag cs.
Proof.
  unfold valid_tag.
  destruct (String.eqb_spec (upper cs) "RGB"); [tauto|].
  destruct (String.eqb_spec (upper cs) "YUV"); [tauto|].
  destruct (String.eqb_spec (upper cs) "HSV"); tauto.
Qed.

(** The HSV distance in all its cases, exceptions included. *)
Lemma distance_hsv_cases (q : RGB) (c : BeadColor) :
  cache_ok c ->
  match __rgb2hsv (rgb c) with
  | inl e => __distance_hsv q c = Outcome (inl e) c [Call_rgb2hsv (rgb c)]
  | inr t1 =>
      match __rgb2hsv q with
      | inl e =>
          __distance_hsv q c = Outcome (inl e) (set_hsv c t1) (hsv_calls c q)
      | inr t2 =>
          __distance_hsv q c =
            Outcome (inr (Spec.distanceHSV_of t1 t2)) (set_hsv c t1)
                    (hsv_calls c q)
      end
  end.
Proof.
  intros Hc. destruct (__rgb2hsv (rgb c)) as [e|t1] eqn:H1.
  - destruct Hc as [_ Hh]. destruct (hsv c) as [t|] eqn:E.
    + specialize (Hh t eq_refl). congruence.
    + run. rewrite E, H1. reflexivity.
  - destruct (__rgb2hsv q) as [e|t2] eqn:H2.
    + destruct Hc as [_ Hh]. unfold hsv_calls.
      destruct (hsv c) as [t|] eqn:E.
      * pose proof (Hh t eq_refl) as Ht. rewrite H1 in Ht. injection Ht as <-.
        rewrite (set_hsv_id _ _ E). run. rewrite E, H2.
        destruct t1 as [[? ?] ?]. reflexivity.
      * run. rewrite E, H1, H2. destruct t1 as [[? ?] ?]. reflexivity.
    + apply distance_hsv_run; assumption.
Qed.

(** No query changes the name or the colour of the object. *)
Lemma get_distance_rgb_name (cs : string) (q : RGB) (c : BeadColor) :
  cache_ok c ->
  rgb (final (get_distance cs q c)) = rgb c
  /\ name (final (get_distance cs q c)) = name c.
Proof.
  intros Hc. destruct (tag_cases cs) as [H|[H|[H|H]]].
  - rewrite (dispatch_rgb _ _ H), distance_rgb_run. auto.
  - rewrite (dispatch_yuv _ _ H), distance_yuv_run by assumption. auto.
  - rewrite (dispatch_hsv _ _ H).
    pose proof (distance_hsv_cases q c Hc) as Hcase.
    destruct (__rgb2hsv (rgb c)); [rewrite Hcase; auto|].
    destruct (__rgb2hsv q); rewrite Hcase; auto.
  - rewrite (dispatch_unknown _ _ H). auto.
Qed.

(** Every query keeps the caches consistent. *)
Lemma get_distance_cache_ok (cs : string) (q : RGB) (c : BeadColor) :
  cache_ok c -> cache_ok (final (get_distance cs q c)).
Proof.
  intros Hc. destruct (tag_cases cs) as [H|[H|[H|H]]].
  - rewrite (dispatch_rgb _ _ H), distance_rgb_run. assumption.
  - rewrite (dispatch_yuv _ _ H), distance_yuv_run by assumption.
    destruct Hc as [_ Hh]. split; simpl; [congruence|assumption].
  - rewrite (dispatch_hsv _ _ H).
    pose proof (distance_hsv_cases q c Hc) as Hcase.
    destruct (__rgb2hsv (rgb c)) as [e|t1] eqn:H1;
      [rewrite Hcase; assumption|].
    destruct Hc as [Hy _].
    destruct (__rgb2hsv q); rewrite Hcase; split; simpl; try assumption;
      intros v [= <-]; assumption.
  - rewrite (dispatch_unknown _ _ H). assumption.
Qed.

(** The value of a query depends on the object's colour only, not on what
    its caches hold. *)
Lemma get_distance_value (cs : string) (q : RGB) (c : BeadColor) :
  cache_ok c -> value (get_distance cs q c) = fresh_value cs (rgb c) q.
Proof.
  intros Hc. unfold fresh_value.
  pose proof (cache_ok_init "" (rgb c)) as Hi.
  destruct (tag_cases cs) as [H|[H|[H|H]]].
  - rewrite !(dispatch_rgb _ _ H), !distance_rgb_run. reflexivity.
  - rewrite !(dispatch_yuv _ _ H), !distance_yuv_run by assumption.
    reflexivity.
  - rewrite !(dispatch_hsv _ _ H).
    pose proof (distance_hsv_cases q c Hc) as Hcase.
    pose proof (distance_hsv_cases q _ Hi) as Hcase'. simpl in Hcase'.
    destruct (__rgb2hsv (rgb c)); [rewrite Hcase, Hcase'; reflexivity|].
    destruct (__rgb2hsv q); rewrite Hcase, Hcase'; reflexivity.
  - rewrite !(dispatch_unknown _ _ H). reflexivity.
Qed.

(** On the data model's domain a query with a valid tag returns a
    distance, and the distance is not negative. *)
Lemma fresh_value_ok (cs : string) (a q : RGB) :
  valid_tag cs -> in_range a -> in_range q ->
  exists d, fresh_value cs a q = inr d /\ (0 <= d)%R.
Proof.
  intros Hv Ha Hq. unfold fresh_value.
  pose proof (cache_ok_init "" a) as Hi.
  destruct Hv as [H|[H|H]].
  - rewrite (dispatch_rgb _ _ H), distance_rgb_run. simpl.
    rewrite math_sqrt_ok by (apply radicandRGB_nonneg; assumption).
    eexists; split; [reflexivity|apply sqrt_pos].
  - rewrite (dispatch_yuv _ _ H), distance_yuv_run by assumption. simpl.
    eexists; split; [reflexivity|]. unfold Spec.distanceYUV.
    destruct (__rgb2yuv a) as [[? ?] ?], (__rgb2yuv q) as [[? ?] ?].
    apply sqrt_pos.
  - rewrite (dispatch_hsv _ _ H).
    destruct (rgb2hsv_total a Ha) as [t1 H1].
    destruct (rgb2hsv_total q Hq) as [t2 H2].
    rewrite (distance_hsv_run q _ t1 t2 Hi H1 H2). simpl.
    eexists; split; [reflexivity|]. unfold Spec.distanceHSV_of.
    destruct t1 as [[? ?] ?], t2 as [[? ?] ?]. apply sqrt_pos.
Qed.

(** In range, the RGB distance is the spec's and the object is untouched. *)
Lemma get_distance_rgb_run (cs : string) (q : RGB) (c : BeadColor) :
  upper cs = "RGB"%string -> in_range (rgb c) -> in_range q ->
  get_distance cs q c = Outcome (inr (Spec.distanceRGB (rgb c) q)) c [].
Proof.
  intros H Hc Hq. rewrite (dispatch_rgb _ _ H), distance_rgb_run.
  rewrite math_sqrt_ok by (apply radicandRGB_nonneg; assumption).
  reflexivity.
Qed.

(** ** The scan of [get_closest] *)

Lemma lt_bound_true (d : R) (m : bound) :
  lt_bound d m = true <-> match m with PosInf => True | Fin x => (d < x)%R end.
Proof.
  destruct m as [|x]; simpl; [tauto|].
  destruct (Rlt_dec d x); split; intros; try discriminate; tauto.
Qed.

Lemma lt_bound_false (d : R) (m : bound) :
  lt_bound d m = false <-> match m with PosInf => False | Fin x => (x <= d)%R end.
Proof.
  destruct m as [|x]; simpl; [split; [discriminate|tauto]|].
  destruct (Rlt_dec d x); split; intros; try discriminate; try lra; reflexivity.
Qed.

Section Scan.
Variables (cs : string) (q : RGB).
Hypothesis Hcs : valid_tag cs.
Hypothesis Hq : in_range q.

(** The distance of an entry of the data model to the query. *)
Lemma entry_distance (c : BeadColor) :
  entry_ok c ->
  exists d, value (get_distance cs q c) = inr d /\ (0 <= d)%R.
Proof.
  intros [Hr Hc]. rewrite (get_distance_value _ _ _ Hc).
  apply fresh_value_ok; assumption.
Qed.

(** What the loop returns, from any running minimum [m] and best index
    [best]: either nothing in [todo] is below [m] and [best] stands, or
    the first entry of [todo] at the least distance, which is below [m]. *)
Lemma get_closest_loop_spec (todo : list BeadColor) :
  Forall entry_ok todo ->
  forall (i : nat) (m : bound) (best : option nat),
  exists res,
    value (get_closest_loop cs q todo i m best) = inr res
    /\ ((res = best
         /\ forall (j : nat) (c : BeadColor) (d : R),
              todo !! j = Some c -> value (get_distance cs q c) = inr d ->
              lt_bound d m = false)
        \/ exists (k : nat) (c : BeadColor) (d : R),
             res = Some (i + k)%nat /\ todo !! k = Some c
             /\ value (get_distance cs q c) = inr d
             /\ lt_bound d m = true
             /\ forall (j : nat) (c' : BeadColor) (d' : R),
                  todo !! j = Some c' ->
                  value (get_distance cs q c') = inr d' ->
                  (d <= d')%R /\ ((j < k)%nat -> (d < d')%R)).
Proof.
  induction 1 as [|c todo Hc Htodo IH]; intros i m best.
  - exists best. split; [reflexivity|]. left. split; [reflexivity|].
    intros j c d Hj. discriminate.
  - destruct (entry_distance c Hc) as (d & Hd & _). simpl. rewrite Hd.
    destruct (lt_bound d m) eqn:Hlt.
    + destruct (IH (S i) (Fin d) (Some i)) as (res & Hres & Hcase).
      exists res. split; [exact Hres|]. right.
      destruct Hcase as [[-> Hall]|(k & c2 & d2 & -> & Hk & Hd2 & Hlt2 & Hmin)].
      * exists 0%nat, c, d. rewrite Nat.add_0_r.
        split; [reflexivity|]. split; [reflexivity|].
        split; [assumption|]. split; [assumption|].
        intros j c' d' Hj Hd'. destruct j as [|j]; simpl in Hj.
        -- assert (d' = d) as -> by congruence. split; [lra|lia].
        -- pose proof (Hall j c' d' Hj Hd') as Hge.
           apply lt_bound_false in Hge. simpl in Hge. split; [lra|lia].
      * apply lt_bound_true in Hlt2. simpl in Hlt2.
        exists (S k), c2, d2.
        split; [f_equal; lia|]. split; [assumption|].
        split; [assumption|]. split.
        { apply lt_bound_true. apply lt_bound_true in Hlt.
          destruct m; [exact I|lra]. }
        intros j c' d' Hj Hd'. destruct j as [|j]; simpl in Hj.
        -- assert (d' = d) as -> by congruence. split; [lra|intros _; lra].
        -- destruct (Hmin j c' d' Hj Hd') as [Hle Hstrict].
           split; [assumption|intros Hjk; apply Hstrict; lia].
    + destruct (IH (S i) m best) as (res & Hres & Hcase).
      exists res. split; [exact Hres|].
      destruct Hcase as [[-> Hall]|(k & c2 & d2 & -> & Hk & Hd2 & Hlt2 & Hmin)].
      * left. split; [reflexivity|]. intros j c' d' Hj Hd'.
        destruct j as [|j]; simpl in Hj.
        -- assert (d' = d) as -> by congruence. assumption.
        -- apply (Hall j c' d'); assumption.
      * right. exists (S k), c2, d2.
        split; [f_equal; lia|]. split; [assumption|].
        split; [assumption|]. split; [assumption|].
        intros j c' d' Hj Hd'. destruct j as [|j]; simpl in Hj.
        -- assert (d' = d) as -> by congruence.
           apply lt_bound_true in Hlt2. apply lt_bound_false in Hlt.
           destruct m; [contradiction|]. split; [lra|intros _; lra].
        -- destruct (Hmin j c' d' Hj Hd') as [Hle Hstrict].
           split; [assumption|intros Hjk; apply Hstrict; lia].
Qed.

(** When the scan returns, every object has been queried once. *)
Lemma get_closest_loop_final (todo : list BeadColor) :
  Forall entry_ok todo ->
  forall (i : nat) (m : bound) (best : option nat),
    final (get_closest_loop cs q todo i m best)
    = (fun c => final (get_distance cs q c)) <$> todo.
Proof.
  induction 1 as [|c todo Hc Htodo IH]; intros i m best; [reflexivity|].
  destruct (entry_distance c Hc) as (d & Hd & _).
  rewrite fmap_cons. simpl. rewrite Hd.
  destruct (lt_bound d m); simpl; rewrite IH; reflexivity.
Qed.

End Scan.

(** Whatever the tag and the query, and whether the scan returns or
    raises, the entries it leaves are entries of the data model: a palette
    stays fit for the next scan. *)
Lemma get_closest_loop_entry_ok (cs : string) (q : RGB) (todo : list BeadColor) :
  Forall entry_ok todo ->
  forall (i : nat) (m : bound) (best : option nat),
    Forall entry_ok (final (get_closest_loop cs q todo i m best)).
Proof.
  induction 1 as [|c todo [Hr Hc] Htodo IH]; intros i m best; [constructor|].
  assert (entry_ok (final (get_distance cs q c))) as Hc'.
  { split; [|apply get_distance_cache_ok; exact Hc].
    destruct (get_distance_rgb_name cs q c Hc) as [-> _]. exact Hr. }
  simpl. destruct (value (get_distance cs q c)) as [e|d].
  - constructor; assumption.
  - destruct (lt_bound d m); constructor; auto.
Qed.

(** ** The matcher *)

Lemma get_closest_final (cs : string) (q : RGB) (palette : BeadPalette) :
  valid_tag cs -> in_range q -> Forall entry_ok palette ->
  final (get_closest cs q palette)
  = (fun c => final (get_distance cs q c)) <$> palette.
Proof. intros Hcs Hq Hp. apply get_closest_loop_final; assumption. Qed.

(** On a palette of the data model, the scan returns the first entry at
    the least distance. *)
Lemma get_closest_spec (cs : string) (q : RGB) (palette : BeadPalette) :
  palette <> [] -> Forall entry_ok palette -> valid_tag cs -> in_range q ->
  exists (i : nat) (best : BeadColor) (d : R),
    value (get_closest cs q palette) = inr (Some i)
    /\ palette !! i = Some best
    /\ value (get_distance cs q best) = inr d
    /\ forall (j : nat) (c : BeadColor) (d' : R),
         palette !! j = Some c -> value (get_distance cs q c) = inr d' ->
         (d <= d')%R /\ ((j < i)%nat -> (d < d')%R).
Proof.
  intros Hne Hp Hcs Hq.
  destruct (get_closest_loop_spec cs q Hcs Hq palette Hp 0%nat PosInf None)
    as (res & Hres & [[_ Hall]|(k & c & d & -> & Hk & Hd & _ & Hmin)]).
  - destruct palette as [|c palette]; [contradiction|].
    apply Forall_cons in Hp as [Hc _].
    destruct (entry_distance cs q Hcs Hq c Hc) as (d & Hd & _).
    specialize (Hall 0%nat c d eq_refl Hd). discriminate.
  - exists k, c, d. auto.
Qed.


Lemma entry_ok_init (n : string) (a : RGB) :
  in_range a -> entry_ok (BeadColor__init__ n a).
Proof. intros Ha. split; [exact Ha|apply cache_ok_init]. Qed.

Lemma red_blue_ok : Forall entry_ok red_blue.
Proof.
  repeat constructor; try (apply cache_ok_init); simpl; lia.
Qed.


(** The palette of red and blue answers the query (250, 5, 5) with its
    first entry, "red". *)
Example get_closest_red :
  value (get_closest "RGB" (250, 5, 5) red_blue) = inr (Some 0%nat).
Proof.
  destruct (get_closest_spec "RGB" (250, 5, 5) red_blue)
    as (i & best & d & Hres & Hi & Hd & Hmin);
    [discriminate|exact red_blue_ok|left; reflexivity|simpl; lia|].
  rewrite Hres. do 2 f_equal.
  destruct i as [|[|i]]; [reflexivity| |discriminate]. exfalso.
  injection Hi as <-.
  rewrite get_distance_rgb_run in Hd by (reflexivity || (simpl; lia)).
  injection Hd as <-.
  assert (value (get_distance "RGB" (250, 5, 5)
                   (BeadColor__init__ "red" (255, 0, 0)))
          = inr (Spec.distanceRGB (255, 0, 0) (250, 5, 5))) as Hred
    by (rewrite get_distance_rgb_run by (reflexivity || (simpl; lia));
        reflexivity).
  destruct (Hmin 0%nat _ _ eq_refl Hred) as [Hle _].
  apply Rle_not_lt in Hle. apply Hle. apply sqrt_lt_1_alt.
  unfold Spec.radicandRGB, Spec.weight_r, Spec.weight_b, Spec.rmean.
  simpl. lra.
Qed.





(** ** Dispatch on the tag *)







Lemma not_valid_XYZ : ~ valid_tag "XYZ".
Proof. intros [H|[H|H]]; discriminate. Qed.

Lemma get_closest_unknown_cons
    (cs : string) (q : RGB) (c : BeadColor) (palette : BeadPalette) :
  ~ valid_tag cs ->
  get_closest cs q (c :: palette) = Outcome (inl ValueError) (c :: palette) [].
Proof.
  intros H. unfold get_closest. simpl.
  rewrite (dispatch_unknown _ _ H). reflexivity.
Qed.




(** ** The RGB distance *)

(** C3. For an entry colour [a] and a query [b] in range, the RGB
    distance is the square root of
    [(2 + rmean/256) (a.r-b.r)^2 + 4 (a.g-b.g)^2 + (2 + (255-rmean)/256) (a.b-b.b)^2]
    with [rmean = a.r + b.r/2]; the query leaves the object as it was.
    That [rmean] is the true mean [(a.r + b.r)/2] only when [a.r = 0]. *)
Theorem distance_rgb_formula (cs : string) (c : BeadColor) (q : RGB) :
  upper cs = "RGB"%string -> in_range (rgb c) -> in_range q ->
  get_distance cs q c = Outcome (inr (Spec.distanceRGB (rgb c) q)) c []
  /\ Spec.distanceRGB (rgb c) q
     = sqrt ((2 + Spec.rmean (rgb c) q / 256)
               * (IZR (rgb c).1.1 - IZR q.1.1) ^ 2
             + 4 * (IZR (rgb c).1.2 - IZR q.1.2) ^ 2
             + (2 + (255 - Spec.rmean (rgb c) q) / 256)
               * (IZR (rgb c).2 - IZR q.2) ^ 2)
  /\ Spec.rmean (rgb c) q = (IZR (rgb c).1.1 + IZR q.1.1 / 2)%R
  /\ (Spec.rmean (rgb c) q = Spec.true_mean (rgb c) q <-> (rgb c).1.1 = 0).
Proof.
  intros H Hc Hq. split; [apply get_distance_rgb_run; assumption|].
  split; [reflexivity|]. split; [reflexivity|].
  unfold Spec.rmean, Spec.true_mean. split.
  - intros Heq. apply eq_IZR. lra.
  - intros ->. lra.
Qed.

Lemma distance_rgb_formula_witness :
  get_distance "Rgb" (250, 5, 5) (BeadColor__init__ "red" (255, 0, 0))
  = Outcome (inr (Spec.distanceRGB (255, 0, 0) (250, 5, 5)))
            (BeadColor__init__ "red" (255, 0, 0)) []
  /\ Spec.rmean (255, 0, 0) (250, 5, 5) = (255 + 250 / 2)%R
  /\ Spec.rmean (255, 0, 0) (250, 5, 5) <> Spec.true_mean (255, 0, 0) (250, 5, 5).
Proof.
  destruct (distance_rgb_formula "Rgb" (BeadColor__init__ "red" (255, 0, 0))
              (250, 5, 5)) as (Hrun & _ & Hmean & Htrue).
  - reflexivity.
  - simpl. lia.
  - simpl. lia.
  - split; [exact Hrun|]. split; [exact Hmean|].
    intros Heq. apply Htrue in Heq. discriminate.
Defined.

(** C10. For colours in range both colour-dependent weights of the RGB
    distance are strictly positive ([rmean] is at most 382.5, a value it
    reaches, and the blue weight stays above 1.5), the expression under
    the square root is not negative, and the query returns a distance,
    which is not negative. *)
Theorem distance_rgb_total (cs : string) (c : BeadColor) (q : RGB) :
  upper cs = "RGB"%string -> in_range (rgb c) -> in_range q ->
  (0 < Spec.weight_r (rgb c) q)%R
  /\ (0 < Spec.weight_b (rgb c) q)%R
  /\ (Spec.rmean (rgb c) q <= 382.5)%R
  /\ Spec.rmean (255, 0, 0) (255, 0, 0) = 382.5%R
  /\ (0 <= Spec.radicandRGB (rgb c) q)%R
  /\ __distance_rgb q c
     = Outcome (math_sqrt (Spec.radicandRGB (rgb c) q)) c []
  /\ exists d : R, value (get_distance cs q c) = inr d /\ (0 <= d)%R.
Proof.
  intros H Hc Hq.
  destruct (weights_bounds (rgb c) q Hc Hq) as ((_ & Hm) & Hwr & Hwb).
  split; [lra|]. split; [lra|]. split; [exact Hm|].
  split; [unfold Spec.rmean; simpl; lra|].
  split; [apply radicandRGB_nonneg; assumption|].
  split; [apply distance_rgb_run|].
  rewrite (get_distance_rgb_run _ _ _ H Hc Hq). simpl.
  eexists; split; [reflexivity|apply sqrt_pos].
Qed.

Lemma distance_rgb_total_witness :
  (0 < Spec.weight_b (255, 0, 0)%Z (255, 0, 255)%Z)%R
  /\ exists d : R,
       value (get_distance "rgb" (255, 0, 255)
                (BeadColor__init__ "red" (255, 0, 0))) = inr d
       /\ (0 <= d)%R.
Proof.
  destruct (distance_rgb_total "rgb" (BeadColor__init__ "red" (255, 0, 0))
              (255, 0, 255)) as (_ & Hwb & _ & _ & _ & _ & Hd).
  - reflexivity.
  - simpl. lia.
  - simpl. lia.
  - split; [exact Hwb|exact Hd].
Defined.

(** Outside the range the guarantee is lost: a negative red makes the
    radicand negative and [math.sqrt] raises. *)
Example distance_rgb_out_of_range :
  value (get_distance "rgb" (0, 0, 0) (BeadColor__init__ "odd" (-1024, 0, 0)))
  = inl ValueError.
Proof.
  rewrite (dispatch_rgb "rgb") by reflexivity. rewrite distance_rgb_run.
  simpl. apply math_sqrt_neg.
  unfold Spec.radicandRGB, Spec.weight_r, Spec.weight_b, Spec.rmean. simpl. lra.
Qed.

(** ** The label colour *)

(** C8. [get_textcolor] is white when the sum of the components is at
    most 384 and black when it is above; white (255,255,255) gets black,
    black (0,0,0) gets white, and (128,128,128), whose sum is 384, gets
    white. *)
Theorem get_textcolor_threshold (c : BeadColor) :
  ((rgb c).1.1 + (rgb c).1.2 + (rgb c).2 <= 384 -> get_textcolor c = White)
  /\ ((rgb c).1.1 + (rgb c).1.2 + (rgb c).2 > 384 -> get_textcolor c = Black)
  /\ get_textcolor (BeadColor__init__ "" (255, 255, 255)) = Black
  /\ get_textcolor (BeadColor__init__ "" (0, 0, 0)) = White
  /\ get_textcolor (BeadColor__init__ "" (128, 128, 128)) = White
  /\ Black <> White.
Proof.
  destruct c as [n [[r g] b] y h]. unfold get_textcolor. simpl.
  split; [|split; [|repeat split; discriminate]].
  - intros H. destruct (Z.ltb_spec (128 * 3) (r + g + b)); [lia|reflexivity].
  - intros H. destruct (Z.ltb_spec (128 * 3) (r + g + b)); [reflexivity|lia].
Qed.

Lemma get_textcolor_threshold_witness :
  get_textcolor (BeadColor__init__ "grey" (128, 128, 128)) = White
  /\ get_textcolor (BeadColor__init__ "pale" (128, 128, 129)) = Black.
Proof.
  split.
  - destruct (get_textcolor_threshold (BeadColor__init__ "grey" (128, 128, 128)))
      as (Hw & _).
    apply Hw. simpl. lia.
  - destruct (get_textcolor_threshold (BeadColor__init__ "pale" (128, 128, 129)))
      as (_ & Hb & _).
    apply Hb. simpl. lia.
Defined.

(** ** Self-distance *)

Lemma distanceRGB_self (a : RGB) : Spec.distanceRGB a a = 0%R.
Proof.
  unfold Spec.distanceRGB, Spec.radicandRGB.
  replace (_ + _ + _)%R with 0%R by ring. apply sqrt_0.
Qed.

Lemma distanceYUV_self (a : RGB) : Spec.distanceYUV a a = 0%R.
Proof.
  unfold Spec.distanceYUV. destruct (__rgb2yuv a) as [[y u] v].
  replace (_ + _ + _)%R with 0%R by ring. apply sqrt_0.
Qed.

Lemma hue_difference_self (h : R) : Spec.hue_difference h h = 0%R.
Proof.
  unfold Spec.hue_difference. replace (h - h)%R with 0%R by ring.
  rewrite Rabs_R0. apply Rmin_left. lra.
Qed.

Lemma distanceHSV_self (t : triple) : Spec.distanceHSV_of t t = 0%R.
Proof.
  destruct t as [[h s] v]. unfold Spec.distanceHSV_of.
  rewrite hue_difference_self.
  replace (s - s)%R with 0%R by ring. replace (v - v)%R with 0%R by ring.
  rewrite Rabs_R0. replace (_ + _ + _)%R with 0%R by field. apply sqrt_0.
Qed.

(** C9. An entry in range is at distance zero from its own colour under
    each of the three metrics. *)
Theorem self_distance_zero (cs : string) (c : BeadColor) :
  valid_tag cs -> entry_ok c ->
  value (get_distance cs (rgb c) c) = inr 0%R
  /\ Spec.distanceRGB (rgb c) (rgb c) = 0%R
  /\ Spec.distanceYUV (rgb c) (rgb c) = 0%R
  /\ exists t : triple,
       __rgb2hsv (rgb c) = inr t /\ Spec.distanceHSV_of t t = 0%R.
Proof.
  intros Hcs [Hr Hc]. destruct (rgb2hsv_total _ Hr) as [t Ht].
  split; [|split; [apply distanceRGB_self|split; [apply distanceYUV_self|]]].
  - destruct Hcs as [H|[H|H]].
    + rewrite (get_distance_rgb_run _ _ _ H Hr Hr). simpl.
      rewrite distanceRGB_self. reflexivity.
    + rewrite (dispatch_yuv _ _ H), distance_yuv_run by assumption. simpl.
      rewrite distanceYUV_self. reflexivity.
    + rewrite (dispatch_hsv _ _ H), (distance_hsv_run _ _ t t Hc Ht Ht). simpl.
      rewrite distanceHSV_self. reflexivity.
  - exists t. split; [exact Ht|apply distanceHSV_self].
Qed.

Lemma self_distance_zero_witness :
  value (get_distance "rgb" (10, 200, 30)
           (BeadColor__init__ "leaf" (10, 200, 30))) = inr 0%R
  /\ value (get_distance "yuv" (10, 200, 30)
              (BeadColor__init__ "leaf" (10, 200, 30))) = inr 0%R
  /\ value (get_distance "hsv" (10, 200, 30)
              (BeadColor__init__ "leaf" (10, 200, 30))) = inr 0%R.
Proof.
  assert (entry_ok (BeadColor__init__ "leaf" (10, 200, 30))) as Hok
    by (apply entry_ok_init; simpl; lia).
  split; [|split].
  - apply (self_distance_zero "rgb" (BeadColor__init__ "leaf" (10, 200, 30)));
      [left; reflexivity|exact Hok].
  - apply (self_distance_zero "yuv" (BeadColor__init__ "leaf" (10, 200, 30)));
      [right; left; reflexivity|exact Hok].
  - apply (self_distance_zero "hsv" (BeadColor__init__ "leaf" (10, 200, 30)));
      [right; right; reflexivity|exact Hok].
Defined.

(** ** The HSV distance *)

Lemma fmod1_eq (x : R) (z : Z) :
  (IZR z <= x < IZR z + 1)%R -> fmod1 x = (x - IZR z)%R.
Proof.
  intros Hx. unfold fmod1. rewrite <- (Int_part_spec x z) by lra. reflexivity.
Qed.

(** (6, 0, 1) has hue 350 degrees and (6, 1, 0) has hue 10 degrees, both
    at full saturation. *)
Lemma rgb2hsv_350 : __rgb2hsv (6, 0, 1) = inr (350, 1, 6 / 255)%R.
Proof.
  unfold __rgb2hsv, colorsys_rgb_to_hsv.
  rewrite (Rmax_left (6 / 255) (0 / 255)) by lra.
  rewrite (Rmax_left (6 / 255) (1 / 255)) by lra.
  rewrite (Rmin_right (6 / 255) (0 / 255)) by lra.
  rewrite (Rmin_left (0 / 255) (1 / 255)) by lra.
  destruct (Req_dec_T (0 / 255) (6 / 255)) as [E|_]; [lra|].
  destruct (Req_dec_T (6 / 255) 0) as [E|_]; [lra|].
  destruct (Req_dec_T (6 / 255) (6 / 255)) as [_|E]; [|lra].
  match goal with |- context [fmod1 ?x] =>
    replace x with (-1 / 36)%R by (field; lra) end.
  rewrite (fmod1_eq _ (-1)) by lra.
  repeat f_equal; field.
Qed.

Lemma rgb2hsv_10 : __rgb2hsv (6, 1, 0) = inr (10, 1, 6 / 255)%R.
Proof.
  unfold __rgb2hsv, colorsys_rgb_to_hsv.
  rewrite (Rmax_left (6 / 255) (1 / 255)) by lra.
  rewrite (Rmax_left (6 / 255) (0 / 255)) by lra.
  rewrite (Rmin_right (6 / 255) (1 / 255)) by lra.
  rewrite (Rmin_right (1 / 255) (0 / 255)) by lra.
  destruct (Req_dec_T (0 / 255) (6 / 255)) as [E|_]; [lra|].
  destruct (Req_dec_T (6 / 255) 0) as [E|_]; [lra|].
  destruct (Req_dec_T (6 / 255) (6 / 255)) as [_|E]; [|lra].
  match goal with |- context [fmod1 ?x] =>
    replace x with (1 / 36)%R by (field; lra) end.
  rewrite (fmod1_eq _ 0) by lra.
  repeat f_equal; field.
Qed.

Lemma hue_difference_350_10 : Spec.hue_difference 350 10 = 20%R.
Proof.
  unfold Spec.hue_difference.
  rewrite (Rabs_left (10 - 350)) by lra.
  rewrite Rmin_right by lra. ring.
Qed.

(** C6. For an entry and a query in range, with (H1, S1, V1) and
    (H2, S2, V2) their HSV coordinates from [__rgb2hsv], the HSV distance
    is [sqrt (dh^2 + ds^2 + dv^2)] with
    [dh = min (|H2 - H1|, 360 - |H2 - H1|) / 180], [ds = |S2 - S1|] and
    [dv = |V2 - V1|]; between the hues 350 and 10 the circular difference
    is 20 degrees, not 340. *)
Theorem distance_hsv_formula (cs : string) (c : BeadColor) (q : RGB) :
  upper cs = "HSV"%string -> entry_ok c -> in_range q ->
  (exists h1 s1 v1 h2 s2 v2 : R,
     __rgb2hsv (rgb c) = inr (h1, s1, v1)
     /\ __rgb2hsv q = inr (h2, s2, v2)
     /\ value (get_distance cs q c)
        = inr (sqrt ((Rmin (Rabs (h2 - h1)) (360 - Rabs (h2 - h1)) / 180) ^ 2
                     + Rabs (s2 - s1) ^ 2 + Rabs (v2 - v1) ^ 2)))
  /\ Rmin (Rabs (10 - 350)) (360 - Rabs (10 - 350)) = 20%R
  /\ Rmin (Rabs (10 - 350)) (360 - Rabs (10 - 350)) <> 340%R.
Proof.
  intros H [Hr Hc] Hq. split.
  - destruct (rgb2hsv_total _ Hr) as [[[h1 s1] v1] H1].
    destruct (rgb2hsv_total _ Hq) as [[[h2 s2] v2] H2].
    exists h1, s1, v1, h2, s2, v2. split; [exact H1|]. split; [exact H2|].
    rewrite (dispatch_hsv _ _ H), (distance_hsv_run _ _ _ _ Hc H1 H2).
    reflexivity.
  - pose proof hue_difference_350_10 as E. unfold Spec.hue_difference in E.
    rewrite E. split; [reflexivity|lra].
Qed.

(** The entry (6, 0, 1), of hue 350, and the query (6, 1, 0), of hue 10,
    differ in hue only: their distance is 20/180. *)
Lemma distance_hsv_formula_witness :
  value (get_distance "hsv" (6, 1, 0) (BeadColor__init__ "pink" (6, 0, 1)))
  = inr (20 / 180)%R.
Proof.
  destruct (distance_hsv_formula "hsv" (BeadColor__init__ "pink" (6, 0, 1))
              (6, 1, 0)) as ((h1 & s1 & v1 & h2 & s2 & v2 & H1 & H2 & Hd) & _).
  - reflexivity.
  - apply entry_ok_init. simpl. lia.
  - simpl. lia.
  - cbn [rgb BeadColor__init__] in H1.
    rewrite rgb2hsv_350 in H1. rewrite rgb2hsv_10 in H2.
    injection H1 as <- <- <-. injection H2 as <- <- <-.
    rewrite Hd. f_equal.
    pose proof hue_difference_350_10 as E. unfold Spec.hue_difference in E.
    rewrite E. replace (1 - 1)%R with 0%R by ring.
    replace (6 / 255 - 6 / 255)%R with 0%R by ring. rewrite Rabs_R0.
    replace ((20 / 180) ^ 2 + 0 ^ 2 + 0 ^ 2)%R with ((20 / 180) ^ 2)%R by ring.
    apply sqrt_pow2. lra.
Defined.

(** ** The caches *)

Lemma count_app {A : Type} (f : A -> bool) (l1 l2 : list A) :
  count f (l1 ++ l2) = (count f l1 + count f l2)%nat.
Proof. induction l1 as [|x l1 IH]; simpl; [reflexivity|rewrite IH; lia]. Qed.

(** What one query writes and which conversions it calls, by tag. *)
Lemma get_distance_effect (cs : string) (q : RGB) (c : BeadColor) (t : triple) :
  cache_ok c -> __rgb2hsv (rgb c) = inr t ->
  final (get_distance cs q c)
  = (if String.eqb (upper cs) "YUV" then set_yuv c (__rgb2yuv (rgb c))
     else if String.eqb (upper cs) "HSV" then set_hsv c t else c)
  /\ calls (get_distance cs q c)
     = (if String.eqb (upper cs) "YUV" then yuv_calls c q
        else if String.eqb (upper cs) "HSV" then hsv_calls c q else []).
Proof.
  intros Hc Ht. destruct (tag_cases cs) as [H|[H|[H|H]]].
  - rewrite (dispatch_rgb _ _ H), distance_rgb_run, H. auto.
  - rewrite (dispatch_yuv _ _ H), distance_yuv_run, H by assumption. auto.
  - rewrite (dispatch_hsv _ _ H), H.
    pose proof (distance_hsv_cases q c Hc) as Hcase. rewrite Ht in Hcase.
    destruct (__rgb2hsv q); rewrite Hcase; auto.
  - rewrite (dispatch_unknown _ _ H). unfold valid_tag in H.
    destruct (String.eqb_spec (upper cs) "YUV"); [tauto|].
    destruct (String.eqb_spec (upper cs) "HSV"); [tauto|]. auto.
Qed.

Lemma count_yuv_calls (c : BeadColor) (q : RGB) :
  count is_rgb2yuv (yuv_calls c q)
  = (match yuv c with None => 2 | Some _ => 1 end)%nat
  /\ count is_rgb2hsv (yuv_calls c q) = 0%nat.
Proof. unfold yuv_calls. destruct (yuv c); auto. Qed.

Lemma count_hsv_calls (c : BeadColor) (q : RGB) :
  count is_rgb2hsv (hsv_calls c q)
  = (match hsv c with None => 2 | Some _ => 1 end)%nat
  /\ count is_rgb2yuv (hsv_calls c q) = 0%nat.
Proof. unfold hsv_calls. destruct (hsv c); auto. Qed.

(** A sequence of queries from any consistent state. *)
Lemma queries_spec (qs : list (string * RGB)) :
  forall (c : BeadColor) (t : triple),
  cache_ok c -> __rgb2hsv (rgb c) = inr t ->
  let r := queries qs c in
  let ny := count (has_tag "YUV") qs in
  let nh := count (has_tag "HSV") qs in
  cache_ok r.1 /\ rgb r.1 = rgb c /\ name r.1 = name c
  /\ yuv r.1 = (if (ny =? 0)%nat then yuv c else Some (__rgb2yuv (rgb c)))
  /\ hsv r.1 = (if (nh =? 0)%nat then hsv c else Some t)
  /\ count is_rgb2yuv r.2 = (ny + pending (yuv c) ny)%nat
  /\ count is_rgb2hsv r.2 = (nh + pending (hsv c) nh)%nat.
Proof.
  induction qs as [|[cs q] qs IH]; intros c t Hc Ht.
  - simpl. destruct (yuv c), (hsv c); auto 10.
  - destruct (get_distance_effect cs q c t Hc Ht) as [Hfin Hcalls].
    pose proof (get_distance_cache_ok cs q c Hc) as Hc'.
    destruct (get_distance_rgb_name cs q c Hc) as [Hrgb Hname].
    assert (__rgb2hsv (rgb (final (get_distance cs q c))) = inr t) as Ht'
      by (rewrite Hrgb; exact Ht).
    specialize (IH _ t Hc' Ht'). cbv zeta in IH |- *.
    destruct IH as (I1 & I2 & I3 & I4 & I5 & I6 & I7).
    rewrite Hrgb in I2, I4. rewrite Hname in I3.
    cbn [queries fst snd count]. rewrite !count_app, I6, I7, I4, I5.
    split; [exact I1|]. split; [exact I2|]. split; [exact I3|].
    clear I1 I2 I3 I4 I5 I6 I7 Hc' Ht' Hrgb Hname.
    set (ny := count (has_tag "YUV") qs). set (nh := count (has_tag "HSV") qs).
    unfold has_tag. cbn [fst]. rewrite Hfin, Hcalls. clear Hfin Hcalls.
    destruct (String.eqb_spec (upper cs) "YUV") as [Ey|Ey].
    + rewrite Ey. cbn [String.eqb Ascii.eqb Bool.eqb].
      destruct (count_yuv_calls c q) as [-> ->].
      cbn [set_yuv yuv hsv pending].
      destruct (yuv c), (hsv c), ny, nh; cbn; repeat split; lia || reflexivity.
    + destruct (String.eqb_spec (upper cs) "HSV") as [Eh|Eh].
      * destruct (count_hsv_calls c q) as [-> ->].
        cbn [set_hsv yuv hsv pending].
        destruct (yuv c), (hsv c), ny, nh; cbn; repeat split; lia || reflexivity.
      * cbn. repeat split; reflexivity.
Qed.

(** No query writes the query's colour, or anything that depends on it. *)
Lemma get_distance_final_query (cs : string) (q q' : RGB) (c : BeadColor) :
  cache_ok c -> final (get_distance cs q c) = final (get_distance cs q' c).
Proof.
  intros Hc. destruct (tag_cases cs) as [H|[H|[H|H]]].
  - rewrite !(dispatch_rgb _ _ H), !distance_rgb_run. reflexivity.
  - rewrite !(dispatch_yuv _ _ H), !distance_yuv_run by assumption. reflexivity.
  - rewrite !(dispatch_hsv _ _ H).
    pose proof (distance_hsv_cases q c Hc) as H1.
    pose proof (distance_hsv_cases q' c Hc) as H2.
    destruct (__rgb2hsv (rgb c)); [rewrite H1, H2; reflexivity|].
    destruct (__rgb2hsv q), (__rgb2hsv q'); rewrite H1, H2; reflexivity.
  - rewrite !(dispatch_unknown _ _ H). reflexivity.
Qed.

(** A cache that holds a value keeps it through every query. *)
Lemma get_distance_persists (cs : string) (q : RGB) (c : BeadColor) :
  cache_ok c ->
  (forall v, yuv c = Some v -> yuv (final (get_distance cs q c)) = Some v)
  /\ (forall v, hsv c = Some v -> hsv (final (get_distance cs q c)) = Some v).
Proof.
  intros Hc. pose proof Hc as [Hy Hh].
  destruct (tag_cases cs) as [H|[H|[H|H]]].
  - rewrite (dispatch_rgb _ _ H), distance_rgb_run. auto.
  - rewrite (dispatch_yuv _ _ H), distance_yuv_run by assumption. simpl.
    split; [|auto]. intros v Hv. rewrite (Hy v Hv). reflexivity.
  - rewrite (dispatch_hsv _ _ H).
    pose proof (distance_hsv_cases q c Hc) as Hcase.
    destruct (__rgb2hsv (rgb c)) as [e|t] eqn:Ht; [rewrite Hcase; auto|].
    assert (forall v, hsv c = Some v -> Some t = Some v) as Hsame
      by (intros v Hv; specialize (Hh v Hv); congruence).
    destruct (__rgb2hsv q); rewrite Hcase; simpl; auto.
  - rewrite (dispatch_unknown _ _ H). auto.
Qed.

(** C7. An entry built from a colour in range starts with both caches
    empty. After any sequence of queries (any tags, any colours): each
    cache is empty if no query of its space was made and otherwise holds
    the conversion of the entry's own colour, name and colour unchanged;
    the conversion helper of a space was called once per query of that
    space (for the query's colour) and once more in all (for the entry's
    own colour, at the first such query); the next query returns what it
    would return on the freshly built entry, writes nothing that depends
    on the query's colour, keeps whatever the caches hold, and converts
    the query's colour anew, and the entry's own only if its cache is
    still empty; and a query in RGB space reads no cache, writes nothing
    and converts nothing. *)
Theorem caches_write_once
    (n : string) (a : RGB) (qs : list (string * RGB)) :
  in_range a ->
  let c0 := BeadColor__init__ n a in
  let c := (queries qs c0).1 in
  let log := (queries qs c0).2 in
  let ny := count (has_tag "YUV") qs in
  let nh := count (has_tag "HSV") qs in
  (yuv c0 = None /\ hsv c0 = None)
  /\ (name c = n /\ rgb c = a /\ cache_ok c)
  /\ yuv c = (if (ny =? 0)%nat then None else Some (__rgb2yuv a))
  /\ (exists t : triple,
        __rgb2hsv a = inr t
        /\ hsv c = (if (nh =? 0)%nat then None else Some t))
  /\ count is_rgb2yuv log = (ny + Nat.min 1 ny)%nat
  /\ count is_rgb2hsv log = (nh + Nat.min 1 nh)%nat
  /\ (forall (cs : string) (q : RGB),
        value (get_distance cs q c) = value (get_distance cs q c0))
  /\ (forall (cs : string) (q q' : RGB),
        final (get_distance cs q c) = final (get_distance cs q' c))
  /\ (forall (cs : string) (q : RGB) (v : triple),
        (yuv c = Some v -> yuv (final (get_distance cs q c)) = Some v)
        /\ (hsv c = Some v -> hsv (final (get_distance cs q c)) = Some v))
  /\ (forall (cs : string) (q : RGB), upper cs = "YUV"%string ->
        calls (get_distance cs q c)
        = match yuv c with
          | None => [Call_rgb2yuv a; Call_rgb2yuv q]
          | Some _ => [Call_rgb2yuv q]
          end)
  /\ (forall (cs : string) (q : RGB), upper cs = "HSV"%string ->
        calls (get_distance cs q c)
        = match hsv c with
          | None => [Call_rgb2hsv a; Call_rgb2hsv q]
          | Some _ => [Call_rgb2hsv q]
          end)
  /\ (forall (cs : string) (q : RGB), upper cs = "RGB"%string ->
        final (get_distance cs q c) = c /\ calls (get_distance cs q c) = []
        /\ forall c' : BeadColor, rgb c' = a ->
             value (get_distance cs q c') = value (get_distance cs q c)).
Proof.
  intros Ha c0 c log ny nh.
  destruct (rgb2hsv_total a Ha) as [t Ht].
  destruct (queries_spec qs c0 t (cache_ok_init n a) Ht)
    as (Hc & Hrgb & Hname & Hy & Hh & Hcy & Hch).
  fold c in Hc, Hrgb, Hname, Hy, Hh. fold log in Hcy, Hch.
  fold ny in Hy, Hcy. fold nh in Hh, Hch. simpl in Hrgb, Hname, Hy, Hh, Hcy, Hch.
  split; [split; reflexivity|]. split; [auto|]. split; [exact Hy|].
  split; [exists t; auto|]. split; [exact Hcy|]. split; [exact Hch|].
  assert (__rgb2hsv (rgb c) = inr t) as Ht' by (rewrite Hrgb; exact Ht).
  split; [|split; [|split; [|split; [|split]]]].
  - intros cs q. rewrite !get_distance_value by (assumption || apply cache_ok_init).
    rewrite Hrgb. reflexivity.
  - intros cs q q'. apply get_distance_final_query. exact Hc.
  - intros cs q v. destruct (get_distance_persists cs q c Hc). auto.
  - intros cs q H. destruct (get_distance_effect cs q c t Hc Ht') as [_ ->].
    rewrite H. unfold yuv_calls. rewrite Hrgb. reflexivity.
  - intros cs q H. destruct (get_distance_effect cs q c t Hc Ht') as [_ ->].
    rewrite H. unfold hsv_calls. rewrite Hrgb. reflexivity.
  - intros cs q H. rewrite (dispatch_rgb _ _ H), distance_rgb_run.
    split; [reflexivity|]. split; [reflexivity|].
    intros c' Hc'. rewrite distance_rgb_run, Hc', Hrgb. reflexivity.
Qed.

Lemma caches_write_once_witness :
  yuv (queries mixed_queries (BeadColor__init__ "pink" (6, 0, 1))).1
  = Some (__rgb2yuv (6, 0, 1))
  /\ hsv (queries mixed_queries (BeadColor__init__ "pink" (6, 0, 1))).1
     = Some (350, 1, 6 / 255)%R
  /\ count is_rgb2yuv
       (queries mixed_queries (BeadColor__init__ "pink" (6, 0, 1))).2 = 4%nat
  /\ count is_rgb2hsv
       (queries mixed_queries (BeadColor__init__ "pink" (6, 0, 1))).2 = 2%nat.
Proof.
  destruct (caches_write_once "pink" (6, 0, 1) mixed_queries)
    as (_ & _ & Hy & (t & Ht & Hh) & Hcy & Hch & _).
  - simpl. lia.
  - rewrite rgb2hsv_350 in Ht. injection Ht as <-.
    split; [exact Hy|]. split; [exact Hh|]. split; [exact Hcy|exact Hch].
Defined.

(** ** The three distances as metrics *)

Lemma sqrt_eq_0_iff (x : R) : (0 <= x)%R -> (sqrt x = 0%R <-> x = 0%R).
Proof.
  intros Hx. split; [intros H; apply sqrt_eq_0; assumption|].
  intros ->. apply sqrt_0.
Qed.

Lemma sum_squares_0 (x y z : R) :
  (x ^ 2 + y ^ 2 + z ^ 2)%R = 0%R -> x = 0%R /\ y = 0%R /\ z = 0%R.
Proof.
  intros H. pose proof (pow2_ge_0 x). pose proof (pow2_ge_0 y).
  pose proof (pow2_ge_0 z).
  repeat split; apply Rsqr_0_uniq; unfold Rsqr; nra.
Qed.

(** [__rgb2yuv] is one-to-one on integer triples. *)
Lemma rgb2yuv_inj (a b : RGB) : __rgb2yuv a = __rgb2yuv b -> a = b.
Proof.
  destruct a as [[r1 g1] b1], b as [[r2 g2] b2]. unfold __rgb2yuv.
  intros [= Hy Hu Hv].
  assert (IZR b1 = IZR b2) as Hb by lra.
  assert (IZR r1 = IZR r2) as Hr by lra.
  assert (IZR g1 = IZR g2) as Hg by lra.
  apply eq_IZR in Hb, Hr, Hg. congruence.
Qed.


Lemma distanceYUV_0 (a b : RGB) : Spec.distanceYUV a b = 0%R <-> a = b.
Proof.
  split; [|intros ->; apply distanceYUV_self].
  intros H. apply rgb2yuv_inj. unfold Spec.distanceYUV in H.
  destruct (__rgb2yuv a) as [[y1 u1] v1], (__rgb2yuv b) as [[y2 u2] v2].
  apply sqrt_eq_0 in H; [|apply sum_squares_nonneg].
  apply sum_squares_0 in H as (Hy & Hu & Hv).
  f_equal; [f_equal|]; lra.
Qed.



Lemma distanceRGB_0 (a b : RGB) :
  in_range a -> in_range b -> (Spec.distanceRGB a b = 0%R <-> a = b).
Proof.
  intros Ha Hb. split; [|intros ->; apply distanceRGB_self].
  intros H. apply sqrt_eq_0 in H; [|apply radicandRGB_nonneg; assumption].
  destruct (weights_bounds a b Ha Hb) as (_ & Hwr & Hwb).
  unfold Spec.radicandRGB in H.
  destruct a as [[r1 g1] b1], b as [[r2 g2] b2]. simpl in H.
  set (wr := Spec.weight_r (r1, g1, b1) (r2, g2, b2)) in *.
  set (wb := Spec.weight_b (r1, g1, b1) (r2, g2, b2)) in *.
  pose proof (pow2_ge_0 (IZR r1 - IZR r2)) as Pr.
  pose proof (pow2_ge_0 (IZR g1 - IZR g2)) as Pg.
  pose proof (pow2_ge_0 (IZR b1 - IZR b2)) as Pb.
  assert (0 <= wr * (IZR r1 - IZR r2) ^ 2)%R by (apply Rmult_le_pos; lra).
  assert (0 <= wb * (IZR b1 - IZR b2) ^ 2)%R by (apply Rmult_le_pos; lra).
  assert ((IZR r1 - IZR r2) ^ 2 = 0)%R as Er by nra.
  assert ((IZR g1 - IZR g2) ^ 2 = 0)%R as Eg by nra.
  assert ((IZR b1 - IZR b2) ^ 2 = 0)%R as Eb by nra.
  assert (IZR r1 = IZR r2) as Hr by nra.
  assert (IZR g1 = IZR g2) as Hg by nra.
  assert (IZR b1 = IZR b2) as Hbl by nra.
  apply eq_IZR in Hr, Hg, Hbl. congruence.
Qed.

(** The two radicands differ by the half difference of the reds, over
    256, times the difference of the squared red and blue differences. *)
Lemma radicandRGB_swap (a b : RGB) :
  (Spec.radicandRGB a b - Spec.radicandRGB b a
   = (IZR a.1.1 - IZR b.1.1) / 512
     * ((IZR a.1.1 - IZR b.1.1) ^ 2 - (IZR a.2 - IZR b.2) ^ 2))%R.
Proof.
  unfold Spec.radicandRGB, Spec.weight_r, Spec.weight_b, Spec.rmean. field.
Qed.

(** X2. For an entry and a query in range the RGB distance is zero
    exactly when the colours are equal, but it is not symmetric: the
    distance of [a] seen from [b] equals the distance of [b] seen from
    [a] exactly when the reds are equal or the red and blue differences
    have the same size. *)
Theorem distance_rgb_asymmetry (cs : string) (a b : RGB) :
  upper cs = "RGB"%string -> in_range a -> in_range b ->
  exists d d' : R,
    value (get_distance cs b (BeadColor__init__ "" a)) = inr d
    /\ value (get_distance cs a (BeadColor__init__ "" b)) = inr d'
    /\ (d = 0%R <-> a = b)
    /\ (d = d' <-> a.1.1 = b.1.1 \/ (a.1.1 - b.1.1) ^ 2 = (a.2 - b.2) ^ 2).
Proof.
  intros H Ha Hb.
  exists (Spec.distanceRGB a b), (Spec.distanceRGB b a).
  rewrite !get_distance_rgb_run by assumption.
  split; [reflexivity|]. split; [reflexivity|].
  split; [apply distanceRGB_0; assumption|].
  pose proof (radicandRGB_nonneg a b Ha Hb) as Pab.
  pose proof (radicandRGB_nonneg b a Hb Ha) as Pba.
  pose proof (radicandRGB_swap a b) as Hswap.
  assert (IZR ((a.1.1 - b.1.1) ^ 2) = ((IZR a.1.1 - IZR b.1.1) ^ 2)%R) as Er
    by apply IZR_sq.
  assert (IZR ((a.2 - b.2) ^ 2) = ((IZR a.2 - IZR b.2) ^ 2)%R) as Eb
    by apply IZR_sq.
  unfold Spec.distanceRGB. split.
  - intros Hd. apply sqrt_inj in Hd; [|assumption|assumption].
    rewrite Hd in Hswap.
    assert ((IZR a.1.1 - IZR b.1.1)
            * ((IZR a.1.1 - IZR b.1.1) ^ 2 - (IZR a.2 - IZR b.2) ^ 2) = 0)%R
      as Hprod by lra.
    apply Rmult_integral in Hprod as [Hr|Hsq].
    + left. apply eq_IZR. lra.
    + right. apply eq_IZR. rewrite Er, Eb. lra.
  - intros [Hr|Hsq]; f_equal.
    + rewrite Hr in Hswap. lra.
    + apply (f_equal IZR) in Hsq. rewrite Er, Eb in Hsq.
      rewrite Hsq in Hswap. lra.
Qed.

Lemma distance_rgb_asymmetry_witness :
  exists d d' : R,
    value (get_distance "rgb" (0, 0, 0) (BeadColor__init__ "" (2, 0, 0)))
    = inr d
    /\ value (get_distance "rgb" (2, 0, 0) (BeadColor__init__ "" (0, 0, 0)))
       = inr d'
    /\ d <> d'.
Proof.
  destruct (distance_rgb_asymmetry "rgb" (2, 0, 0) (0, 0, 0))
    as (d & d' & Hd & Hd' & _ & Hsym).
  - reflexivity.
  - simpl. lia.
  - simpl. lia.
  - exists d, d'. split; [exact Hd|]. split; [exact Hd'|].
    intros E. apply Hsym in E as [E|E]; discriminate.
Defined.

Lemma fmod1_range (x : R) : (0 <= fmod1 x < 1)%R.
Proof. unfold fmod1. destruct (base_Int_part x). lra. Qed.

Lemma max3_min3 (x y z : R) :
  let M := Rmax (Rmax x y) z in
  let m := Rmin (Rmin x y) z in
  (m <= x <= M /\ m <= y <= M /\ m <= z <= M)%R
  /\ (M = x \/ M = y \/ M = z) /\ (m = x \/ m = y \/ m = z).
Proof.
  cbv zeta. unfold Rmax, Rmin. repeat destruct Rle_dec; repeat split; lra || auto.
Qed.

Lemma div_le_1 (a d : R) : (0 < d)%R -> (0 <= a <= d)%R -> (0 <= a / d <= 1)%R.
Proof.
  intros Hd Ha. pose proof (Rinv_0_lt_compat d Hd) as Hi.
  assert (d * / d = 1)%R as Hone by (apply Rinv_r; lra).
  unfold Rdiv. split; [apply Rmult_le_pos; lra|]. nra.
Qed.

(** On the unit cube [colorsys.rgb_to_hsv] returns, with the hue as a
    fraction of the turn. *)
Lemma colorsys_range (x y z : R) :
  (0 <= x <= 1)%R -> (0 <= y <= 1)%R -> (0 <= z <= 1)%R ->
  exists h s v : R,
    colorsys_rgb_to_hsv x y z = inr (h, s, v)
    /\ (0 <= h < 1)%R /\ (0 <= s <= 1)%R /\ (0 <= v <= 1)%R.
Proof.
  intros Hx Hy Hz. unfold colorsys_rgb_to_hsv.
  destruct (max3_min3 x y z) as (Hb & HM & Hm). cbv zeta in Hb, HM, Hm.
  set (M := Rmax (Rmax x y) z) in *. set (m := Rmin (Rmin x y) z) in *.
  assert (0 <= m /\ M <= 1)%R as [Hm0 HM1] by (split; intuition lra).
  destruct (Req_dec_T m M) as [E|Hne].
  - exists 0%R, 0%R, M. split; [reflexivity|]. lra.
  - destruct (Req_dec_T M 0) as [E0|HM0]; [exfalso; lra|].
    eexists _, _, _. split; [reflexivity|].
    split; [apply fmod1_range|]. split; [|lra].
    apply div_le_1; lra.
Qed.

Lemma rgb2hsv_bounds (a : RGB) :
  in_range a ->
  exists h s v : R,
    __rgb2hsv a = inr (h, s, v)
    /\ (0 <= h < 360)%R /\ (0 <= s <= 1)%R /\ (0 <= v <= 1)%R.
Proof.
  destruct a as [[r g] b]. intros Ha. apply in_range_IZR in Ha.
  destruct (colorsys_range (IZR r / 255) (IZR g / 255) (IZR b / 255))
    as (h & s & v & E & Hh & Hs & Hv); try lra.
  exists (h * 360)%R, s, v. unfold __rgb2hsv. rewrite E.
  split; [reflexivity|]. lra.
Qed.

(** X3. On a colour in range [__rgb2hsv] raises nothing and returns a
    hue in [[0, 360)], a saturation in [[0, 1]] and a value in [[0, 1]]. *)
Theorem rgb2hsv_range (a : RGB) :
  in_range a ->
  exists h s v : R,
    __rgb2hsv a = inr (h, s, v)
    /\ (0 <= h < 360)%R /\ (0 <= s <= 1)%R /\ (0 <= v <= 1)%R.
Proof. intros Ha. apply rgb2hsv_bounds. exact Ha. Qed.

Lemma rgb2hsv_range_witness :
  exists h s v : R,
    __rgb2hsv (0, 128, 255) = inr (h, s, v)
    /\ (0 <= h < 360)%R /\ (0 <= s <= 1)%R /\ (0 <= v <= 1)%R.
Proof. apply (rgb2hsv_range (0, 128, 255)). simpl. lia. Defined.

Lemma fmod1_inj (u w : R) :
  (-1 <= 6 * u < 5)%R -> (-1 <= 6 * w < 5)%R -> fmod1 u = fmod1 w -> u = w.
Proof.
  intros Hu Hw.
  destruct (Rlt_le_dec u 0) as [Un|Up], (Rlt_le_dec w 0) as [Wn|Wp].
  - rewrite (fmod1_eq u (-1)), (fmod1_eq w (-1)) by lra. lra.
  - rewrite (fmod1_eq u (-1)), (fmod1_eq w 0) by lra. lra.
  - rewrite (fmod1_eq u 0), (fmod1_eq w (-1)) by lra. lra.
  - rewrite (fmod1_eq u 0), (fmod1_eq w 0) by lra. lra.
Qed.

Lemma div_bounds (a d : R) :
  (0 < d)%R -> (- d <= a <= d)%R ->
  (-1 <= a / d <= 1)%R /\ ((- d < a)%R -> (-1 < a / d)%R)
  /\ ((a < d)%R -> (a / d < 1)%R) /\ (a / d * d = a)%R.
Proof.
  intros Hd Ha. assert (a / d * d = a)%R as E by (field; lra).
  repeat split; try intros ?; try nra; exact E.
Qed.

(** The hue before the division by six: which sixth of the turn it falls
    in tells which component is the largest. *)
Lemma hue_sector (x y z M m : R) :
  (m <= x <= M /\ m <= y <= M /\ m <= z <= M)%R ->
  (m = x \/ m = y \/ m = z) -> (M = x \/ M = y \/ M = z) -> (m < M)%R ->
  let rc := ((M - x) / (M - m))%R in
  let gc := ((M - y) / (M - m))%R in
  let bc := ((M - z) / (M - m))%R in
  let h := if Req_dec_T x M then (bc - gc)%R
           else if Req_dec_T y M then (2 + rc - bc)%R
           else (4 + gc - rc)%R in
  (x = M /\ (h * (M - m) = y - z)%R /\ (-1 <= h <= 1)%R)
  \/ (y = M /\ (h * (M - m) = 2 * (M - m) + (z - x))%R /\ (1 < h <= 3)%R)
  \/ (z = M /\ (h * (M - m) = 4 * (M - m) + (x - y))%R /\ (3 < h < 5)%R).
Proof.
  intros Hb Hm HM Hlt rc gc bc h.
  assert (0 < M - m)%R as Hd by lra.
  destruct (div_bounds (M - x) (M - m) Hd) as (Rb & _ & _ & Re); [lra|].
  destruct (div_bounds (M - y) (M - m) Hd) as (Gb & _ & _ & Ge); [lra|].
  destruct (div_bounds (M - z) (M - m) Hd) as (Bb & _ & _ & Be); [lra|].
  fold rc in Rb, Re. fold gc in Gb, Ge. fold bc in Bb, Be.
  assert (0 <= rc /\ 0 <= gc /\ 0 <= bc)%R as (R0 & G0 & B0).
  { unfold rc, gc, bc. repeat split; apply div_le_1; lra. }
  unfold h. destruct (Req_dec_T x M) as [Ex|Nx].
  - left. split; [exact Ex|]. split; [nra|lra].
  - assert (0 < rc)%R as Rp by nra.
    destruct (Req_dec_T y M) as [Ey|Ny].
    + right. left. split; [exact Ey|]. split; [nra|lra].
    + assert (0 < gc)%R as Gp by nra.
      right. right. assert (z = M) as Ez by lra.
      split; [exact Ez|]. split; [nra|]. lra.
Qed.

(** [colorsys.rgb_to_hsv] is one-to-one on colours without a negative
    component. *)
Lemma colorsys_inj (x y z x' y' z' : R) :
  (0 <= x /\ 0 <= y /\ 0 <= z)%R -> (0 <= x' /\ 0 <= y' /\ 0 <= z')%R ->
  colorsys_rgb_to_hsv x y z = colorsys_rgb_to_hsv x' y' z' ->
  x = x' /\ y = y' /\ z = z'.
Proof.
  intros Hp Hp'. unfold colorsys_rgb_to_hsv.
  destruct (max3_min3 x y z) as (Hb & HM & Hm).
  destruct (max3_min3 x' y' z') as (Hb' & HM' & Hm').
  cbv zeta in Hb, HM, Hm, Hb', HM', Hm'.
  set (M := Rmax (Rmax x y) z) in *. set (m := Rmin (Rmin x y) z) in *.
  set (M' := Rmax (Rmax x' y') z') in *.
  set (m' := Rmin (Rmin x' y') z') in *.
  destruct (Req_dec_T m M) as [E|Hne], (Req_dec_T m' M') as [E'|Hne'].
  - intros [= EM]. lra.
  - destruct (Req_dec_T M' 0) as [|HM0]; [lra|].
    intros [= _ Es _]. exfalso. symmetry in Es.
    assert ((M' - m') / M' * M' = M' - m')%R by (field; lra). nra.
  - destruct (Req_dec_T M 0) as [|HM0]; [lra|].
    intros [= _ Es _]. exfalso.
    assert ((M - m) / M * M = M - m)%R by (field; lra). nra.
  - destruct (Req_dec_T M 0) as [|HM0]; [lra|].
    destruct (Req_dec_T M' 0) as [|HM0']; [lra|].
    intros [= Eh Es EM]. rewrite <- EM in *.
    assert (m = m') as Emm.
    { assert ((M - m) / M * M = M - m)%R by (field; lra).
      assert ((M - m') / M * M = M - m')%R by (field; lra).
      rewrite Es in *. lra. }
    rewrite <- Emm in *.
    assert (m < M)%R as Hlt by lra.
    pose proof (hue_sector x y z M m Hb Hm HM Hlt) as Hs.
    pose proof (hue_sector x' y' z' M m Hb' Hm' HM' Hlt) as Hs'.
    cbv zeta in Hs, Hs'.
    match type of Eh with fmod1 (?a / 6) = fmod1 (?b / 6) =>
      set (h := a) in *; set (h' := b) in * end.
    assert (h = h') as Ehh.
    { assert (h / 6 = h' / 6)%R
        by (apply fmod1_inj; [intuition lra|intuition lra|exact Eh]).
      lra. }
    rewrite <- Ehh in Hs'.
    destruct Hs as [(Ex & Hh & Hr)|[(Ex & Hh & Hr)|(Ex & Hh & Hr)]];
      destruct Hs' as [(Ex' & Hh' & Hr')|[(Ex' & Hh' & Hr')|(Ex' & Hh' & Hr')]];
      try lra; intuition lra.
Qed.

(** [__rgb2hsv] is one-to-one on colours in range. *)
Lemma rgb2hsv_inj (a b : RGB) :
  in_range a -> in_range b -> __rgb2hsv a = __rgb2hsv b -> a = b.
Proof.
  destruct a as [[r1 g1] b1], b as [[r2 g2] b2]. intros Ha Hb.
  apply in_range_IZR in Ha, Hb. unfold __rgb2hsv. intros E.
  destruct (colorsys_inj (IZR r1 / 255) (IZR g1 / 255) (IZR b1 / 255)
              (IZR r2 / 255) (IZR g2 / 255) (IZR b2 / 255))
    as (Er & Eg & Eb); try (repeat split; lra).
  - destruct (colorsys_rgb_to_hsv (IZR r1 / 255) (IZR g1 / 255) (IZR b1 / 255))
      as [e1|[[h1 s1] v1]],
      (colorsys_rgb_to_hsv (IZR r2 / 255) (IZR g2 / 255) (IZR b2 / 255))
      as [e2|[[h2 s2] v2]]; try discriminate.
    + congruence.
    + injection E as Eh Es Ev. f_equal. f_equal; [f_equal|]; lra.
  - assert (IZR r1 = IZR r2) as Hr by lra.
    assert (IZR g1 = IZR g2) as Hg by lra.
    assert (IZR b1 = IZR b2) as Hbl by lra.
    apply eq_IZR in Hr, Hg, Hbl. congruence.
Qed.

Lemma hue_difference_bounds (h1 h2 : R) :
  (0 <= h1 < 360)%R -> (0 <= h2 < 360)%R ->
  (0 <= Spec.hue_difference h1 h2 <= 180)%R
  /\ (Spec.hue_difference h1 h2 = 0%R -> h1 = h2)
  /\ Spec.hue_difference h1 h2 = Spec.hue_difference h2 h1.
Proof.
  intros H1 H2. unfold Spec.hue_difference.
  rewrite (Rabs_minus_sym h1 h2).
  assert (0 <= Rabs (h2 - h1) < 360)%R as Ha
    by (unfold Rabs; destruct Rcase_abs; lra).
  split; [|split; [|reflexivity]].
  - unfold Rmin. destruct Rle_dec; lra.
  - intros E. assert (Rabs (h2 - h1) = 0)%R as E0
      by (revert E; unfold Rmin; destruct Rle_dec; lra).
    revert E0. unfold Rabs. destruct Rcase_abs; lra.
Qed.

Lemma distanceHSV_props (h1 s1 v1 h2 s2 v2 : R) :
  (0 <= h1 < 360)%R -> (0 <= s1 <= 1)%R -> (0 <= v1 <= 1)%R ->
  (0 <= h2 < 360)%R -> (0 <= s2 <= 1)%R -> (0 <= v2 <= 1)%R ->
  (0 <= Spec.distanceHSV_of (h1, s1, v1) (h2, s2, v2) <= sqrt 3)%R
  /\ Spec.distanceHSV_of (h1, s1, v1) (h2, s2, v2)
     = Spec.distanceHSV_of (h2, s2, v2) (h1, s1, v1)
  /\ (Spec.distanceHSV_of (h1, s1, v1) (h2, s2, v2) = 0%R ->
      h1 = h2 /\ s1 = s2 /\ v1 = v2).
Proof.
  intros Hh1 Hs1 Hv1 Hh2 Hs2 Hv2.
  destruct (hue_difference_bounds h1 h2 Hh1 Hh2) as (Hd & Hd0 & Hsym).
  unfold Spec.distanceHSV_of. rewrite <- Hsym.
  rewrite (Rabs_minus_sym s1 s2), (Rabs_minus_sym v1 v2).
  set (dh := (Spec.hue_difference h1 h2 / 180)%R) in *.
  assert (0 <= dh <= 1)%R as Hdh by (unfold dh; lra).
  assert (0 <= Rabs (s2 - s1) <= 1)%R as Hds
    by (unfold Rabs; destruct Rcase_abs; lra).
  assert (0 <= Rabs (v2 - v1) <= 1)%R as Hdv
    by (unfold Rabs; destruct Rcase_abs; lra).
  set (ds := Rabs (s2 - s1)) in *. set (dv := Rabs (v2 - v1)) in *.
  split; [|split; [reflexivity|]].
  - split; [apply sqrt_pos|]. apply sqrt_le_1_alt. nra.
  - intros E. apply sqrt_eq_0 in E; [|apply sum_squares_nonneg].
    apply sum_squares_0 in E as (E1 & E2 & E3).
    split; [apply Hd0; unfold dh in E1; lra|].
    unfold ds, dv in *. revert E2 E3. unfold Rabs.
    repeat destruct Rcase_abs; lra.
Qed.

(** X4. For an entry and a query in range the HSV distance lies between
    0 and the square root of 3, is the same with the roles of entry and
    query exchanged, and is zero exactly when the two colours are equal. *)
Theorem distance_hsv_metric (cs : string) (c : BeadColor) (q : RGB) :
  upper cs = "HSV"%string -> entry_ok c -> in_range q ->
  exists d : R,
    value (get_distance cs q c) = inr d
    /\ (0 <= d <= sqrt 3)%R
    /\ value (get_distance cs (rgb c) (BeadColor__init__ "" q)) = inr d
    /\ (d = 0%R <-> rgb c = q).
Proof.
  intros H [Hr Hc] Hq.
  destruct (rgb2hsv_bounds _ Hr) as (h1 & s1 & v1 & E1 & Hh1 & Hs1 & Hv1).
  destruct (rgb2hsv_bounds _ Hq) as (h2 & s2 & v2 & E2 & Hh2 & Hs2 & Hv2).
  destruct (distanceHSV_props h1 s1 v1 h2 s2 v2 Hh1 Hs1 Hv1 Hh2 Hs2 Hv2)
    as (Hb & Hsym & H0).
  exists (Spec.distanceHSV_of (h1, s1, v1) (h2, s2, v2)).
  rewrite !(dispatch_hsv _ _ H).
  rewrite (distance_hsv_run q c _ _ Hc E1 E2).
  rewrite (distance_hsv_run (rgb c) (BeadColor__init__ "" q) _ _
             (cache_ok_init "" q) E2 E1).
  split; [reflexivity|]. split; [exact Hb|].
  split; [cbn [value]; rewrite Hsym; reflexivity|]. split.
  - intros E. apply H0 in E as (-> & -> & ->).
    apply rgb2hsv_inj; [assumption|assumption|congruence].
  - intros E. rewrite E, E2 in E1. injection E1 as -> -> ->.
    apply distanceHSV_self.
Qed.

Lemma distance_hsv_metric_witness :
  exists d : R,
    value (get_distance "hsv" (6, 1, 0) (BeadColor__init__ "pink" (6, 0, 1)))
    = inr d
    /\ (0 <= d <= sqrt 3)%R /\ d <> 0%R.
Proof.
  destruct (distance_hsv_metric "hsv" (BeadColor__init__ "pink" (6, 0, 1))
              (6, 1, 0)) as (d & Hd & Hb & _ & Hz).
  - reflexivity.
  - apply entry_ok_init. simpl. lia.
  - simpl. lia.
  - exists d. split; [exact Hd|]. split; [exact Hb|].
    intros E. apply Hz in E. discriminate.
Defined.

(** ** What a scan does to the palette *)

(** No query changes the name or the colour of the object, whatever its
    caches hold. *)
Lemma get_distance_keeps (cs : string) (q : RGB) (c : BeadColor) :
  name (final (get_distance cs q c)) = name c
  /\ rgb (final (get_distance cs q c)) = rgb c.
Proof.
  destruct (tag_cases cs) as [H|[H|[H|H]]].
  - rewrite (dispatch_rgb _ _ H), distance_rgb_run. auto.
  - rewrite (dispatch_yuv _ _ H). run.
    destruct (yuv c) as [[[y1 u1] v1]|]; simpl;
      destruct (__rgb2yuv q) as [[y2 u2] v2];
      try destruct (__rgb2yuv (rgb c)) as [[y1 u1] v1]; auto.
  - rewrite (dispatch_hsv _ _ H). run.
    destruct (hsv c) as [[[h1 s1] v1]|]; simpl.
    + destruct (__rgb2hsv q) as [e|[[h2 s2] v2]]; auto.
    + destruct (__rgb2hsv (rgb c)) as [e|[[h1 s1] v1]]; simpl; [auto|].
      destruct (__rgb2hsv q) as [e|[[h2 s2] v2]]; auto.
  - rewrite (dispatch_unknown _ _ H). auto.
Qed.

Lemma get_closest_loop_keeps (cs : string) (q : RGB) (todo : list BeadColor) :
  forall (i : nat) (m : bound) (best : option nat),
    name <$> final (get_closest_loop cs q todo i m best) = name <$> todo
    /\ rgb <$> final (get_closest_loop cs q todo i m best) = rgb <$> todo.
Proof.
  induction todo as [|c todo IH]; intros i m best; [auto|].
  destruct (get_distance_keeps cs q c) as [Hn Hr]. cbn [get_closest_loop].
  destruct (value (get_distance cs q c)) as [e|d].
  - cbn [final]. rewrite !fmap_cons, Hn, Hr. auto.
  - destruct (lt_bound d m); cbn [final]; rewrite !fmap_cons, Hn, Hr.
    + destruct (IH (S i) (Fin d) (Some i)) as [-> ->]. auto.
    + destruct (IH (S i) m best) as [-> ->]. auto.
Qed.

Lemma get_closest_loop_index (cs : string) (q : RGB) (todo : list BeadColor) :
  forall (i : nat) (m : bound) (best : option nat) (r : nat),
    (forall b, best = Some b -> (b < i)%nat) ->
    value (get_closest_loop cs q todo i m best) = inr (Some r) ->
    (r < i + length todo)%nat.
Proof.
  induction todo as [|c todo IH]; intros i m best r Hbest.
  - simpl. intros [= ->]. specialize (Hbest r eq_refl). lia.
  - simpl. destruct (value (get_distance cs q c)) as [e|d]; [discriminate|].
    destruct (lt_bound d m); simpl; intros Hr; apply IH in Hr; try lia.
    + intros b [= <-]. lia.
    + intros b Hb. specialize (Hbest b Hb). lia.
Qed.

(** X5. Whatever the tag, the query and the state of the caches, and
    whether it returns or raises, [get_closest] leaves the palette with
    the same entries in the same order (same names, same colours, same
    length), and an index it returns is an index of the palette. *)
Theorem get_closest_keeps_palette
    (cs : string) (q : RGB) (palette : BeadPalette) :
  name <$> final (get_closest cs q palette) = name <$> palette
  /\ rgb <$> final (get_closest cs q palette) = rgb <$> palette
  /\ length (final (get_closest cs q palette)) = length palette
  /\ forall i : nat,
       value (get_closest cs q palette) = inr (Some i) ->
       (i < length palette)%nat.
Proof.
  destruct (get_closest_loop_keeps cs q palette 0%nat PosInf None) as [Hn Hr].
  split; [exact Hn|]. split; [exact Hr|]. split.
  - apply (f_equal length) in Hn. rewrite !length_fmap in Hn. exact Hn.
  - intros i Hi.
    apply (get_closest_loop_index cs q palette 0%nat PosInf None i);
      [discriminate|exact Hi].
Qed.

(** Two palettes with the same colours, entry by entry, and consistent
    caches give the same answer. *)
Lemma get_closest_loop_ext (cs : string) (q : RGB) (l l' : list BeadColor) :
  Forall2 (fun c c' => rgb c = rgb c' /\ cache_ok c /\ cache_ok c') l l' ->
  forall (i : nat) (m : bound) (best : option nat),
    value (get_closest_loop cs q l i m best)
    = value (get_closest_loop cs q l' i m best).
Proof.
  induction 1 as [|c c' l l' (Hr & Hc & Hc') Hl IH]; intros i m best;
    [reflexivity|].
  simpl. rewrite (get_distance_value _ _ _ Hc), (get_distance_value _ _ _ Hc').
  rewrite Hr. destruct (fresh_value cs (rgb c') q) as [e|d]; [reflexivity|].
  destruct (lt_bound d m); simpl; apply IH.
Qed.

Lemma get_closest_loop_related (cs : string) (q : RGB) (todo : list BeadColor) :
  Forall cache_ok todo ->
  forall (i : nat) (m : bound) (best : option nat),
    Forall2 (fun c c' => rgb c = rgb c' /\ cache_ok c /\ cache_ok c')
      (final (get_closest_loop cs q todo i m best)) todo.
Proof.
  induction 1 as [|c todo Hc Htodo IH]; intros i m best; [constructor|].
  assert (rgb (final (get_distance cs q c)) = rgb c
          /\ cache_ok (final (get_distance cs q c)) /\ cache_ok c) as Hrel.
  { split; [apply get_distance_keeps|].
    split; [apply get_distance_cache_ok|]; assumption. }
  simpl. destruct (value (get_distance cs q c)) as [e|d].
  - constructor; [exact Hrel|].
    apply Forall2_same_length_lookup_2; [reflexivity|].
    intros j x y Hx Hy. assert (x = y) as -> by congruence.
    assert (cache_ok y) by (eapply Forall_lookup_1; eassumption). auto.
  - destruct (lt_bound d m); constructor; auto.
Qed.

Lemma related_cache_ok (l l' : list BeadColor) :
  Forall2 (fun c c' => rgb c = rgb c' /\ cache_ok c /\ cache_ok c') l l' ->
  Forall cache_ok l.
Proof.
  induction 1 as [|c c' l l' (_ & Hc & _) _ IH]; constructor; assumption.
Qed.

(** X6. What [get_closest] answers does not depend on the scans made
    before: on a palette with consistent caches, after a scan with any
    tag and any query (returned or raised), a scan answers what it would
    have answered on the palette as it was, and the caches are consistent
    again. *)
Theorem get_closest_history_independent
    (cs cs' : string) (q q' : RGB) (palette : BeadPalette) :
  Forall cache_ok palette ->
  value (get_closest cs q (final (get_closest cs' q' palette)))
  = value (get_closest cs q palette)
  /\ Forall cache_ok (final (get_closest cs' q' palette)).
Proof.
  intros Hp.
  pose proof (get_closest_loop_related cs' q' palette Hp 0%nat PosInf None)
    as Hrel.
  split.
  - apply get_closest_loop_ext. exact Hrel.
  - exact (related_cache_ok _ _ Hrel).
Qed.

Lemma get_closest_history_independent_witness :
  value (get_closest "RGB" (250, 5, 5)
           (final (get_closest "hsv" (1, 2, 3) red_blue)))
  = inr (Some 0%nat).
Proof.
  destruct (get_closest_history_independent "RGB" "hsv" (250, 5, 5) (1, 2, 3)
              red_blue) as [-> _].
  - repeat constructor; apply cache_ok_init.
  - exact get_closest_red.
Defined.

(** Under each of the three metrics, in range, the distance is zero for
    equal colours only. *)
Lemma distance_zero_iff (cs : string) (c : BeadColor) (q : RGB) :
  valid_tag cs -> entry_ok c -> in_range q ->
  exists d : R,
    value (get_distance cs q c) = inr d /\ (0 <= d)%R
    /\ (d = 0%R <-> rgb c = q).
Proof.
  intros [H|[H|H]] [Hr Hc] Hq.
  - rewrite (get_distance_rgb_run _ _ _ H Hr Hq).
    exists (Spec.distanceRGB (rgb c) q). split; [reflexivity|].
    split; [apply sqrt_pos|apply distanceRGB_0; assumption].
  - rewrite (dispatch_yuv _ _ H), distance_yuv_run by assumption.
    exists (Spec.distanceYUV (rgb c) q). split; [reflexivity|]. split.
    + unfold Spec.distanceYUV.
      destruct (__rgb2yuv (rgb c)) as [[? ?] ?], (__rgb2yuv q) as [[? ?] ?].
      apply sqrt_pos.
    + apply distanceYUV_0.
  - destruct (rgb2hsv_bounds _ Hr) as (h1 & s1 & v1 & E1 & Hh1 & Hs1 & Hv1).
    destruct (rgb2hsv_bounds _ Hq) as (h2 & s2 & v2 & E2 & Hh2 & Hs2 & Hv2).
    destruct (distanceHSV_props h1 s1 v1 h2 s2 v2 Hh1 Hs1 Hv1 Hh2 Hs2 Hv2)
      as (Hb & _ & H0).
    rewrite (dispatch_hsv _ _ H), (distance_hsv_run q c _ _ Hc E1 E2).
    exists (Spec.distanceHSV_of (h1, s1, v1) (h2, s2, v2)).
    split; [reflexivity|]. split; [lra|]. split.
    + intros E. apply H0 in E as (-> & -> & ->).
      apply rgb2hsv_inj; [assumption|assumption|congruence].
    + intros E. rewrite E, E2 in E1. injection E1 as -> -> ->.
      apply distanceHSV_self.
Qed.

(** X7. An exact match wins: when the palette holds the query's colour,
    [get_closest] returns the first entry of that colour, under each of
    the three metrics. *)
Theorem get_closest_exact_match
    (palette : BeadPalette) (cs : string) (q : RGB) (k : nat) (c : BeadColor) :
  Forall entry_ok palette -> valid_tag cs -> in_range q ->
  palette !! k = Some c -> rgb c = q ->
  exists (i : nat) (best : BeadColor),
    value (get_closest cs q palette) = inr (Some i)
    /\ palette !! i = Some best /\ rgb best = q /\ (i <= k)%nat
    /\ forall (j : nat) (c' : BeadColor),
         (j < i)%nat -> palette !! j = Some c' -> rgb c' <> q.
Proof.
  intros Hp Hcs Hq Hk Hc.
  assert (palette <> []) as Hne by (intros ->; discriminate).
  destruct (get_closest_spec cs q palette Hne Hp Hcs Hq)
    as (i & best & d & Hres & Hi & Hd & Hmin).
  assert (entry_ok c) as Hok by (eapply Forall_lookup_1; eassumption).
  assert (entry_ok best) as Hokb by (eapply Forall_lookup_1; eassumption).
  destruct (distance_zero_iff cs c q Hcs Hok Hq) as (d0 & Hd0 & _ & Hz0).
  destruct (distance_zero_iff cs best q Hcs Hokb Hq) as (d1 & Hd1 & Hp1 & Hz1).
  assert (d1 = d) as -> by congruence.
  assert (d0 = 0%R) as -> by (apply Hz0; exact Hc).
  destruct (Hmin k c 0%R Hk Hd0) as [Hle Hlt].
  assert (d = 0%R) as -> by lra.
  exists i, best. split; [exact Hres|]. split; [exact Hi|].
  split; [apply Hz1; reflexivity|]. split.
  - destruct (Nat.le_gt_cases i k) as [|Hki]; [assumption|].
    specialize (Hlt Hki). lra.
  - intros j c' Hj Hj' Hrgb.
    assert (entry_ok c') as Hok' by (eapply Forall_lookup_1; eassumption).
    destruct (distance_zero_iff cs c' q Hcs Hok' Hq) as (d' & Hd' & _ & Hz').
    destruct (Hmin j c' d' Hj' Hd') as [_ Hstrict].
    specialize (Hstrict Hj). apply Hz' in Hrgb. lra.
Qed.

Lemma get_closest_exact_match_witness :
  exists (i : nat) (best : BeadColor),
    value (get_closest "hsv" (0, 0, 255) red_blue) = inr (Some i)
    /\ red_blue !! i = Some best /\ rgb best = (0, 0, 255) /\ (i <= 1)%nat
    /\ forall (j : nat) (c' : BeadColor),
         (j < i)%nat -> red_blue !! j = Some c' -> rgb c' <> (0, 0, 255).
Proof.
  apply (get_closest_exact_match red_blue "hsv" (0, 0, 255) 1
           (BeadColor__init__ "blue" (0, 0, 255))).
  - exact red_blue_ok.
  - right. right. reflexivity.
  - simpl. lia.
  - reflexivity.
  - reflexivity.
Defined.




Section SecondScan.
Variables (cs : string) (q : RGB).
Hypothesis Hcs : valid_tag cs.
Hypothesis Hq : in_range q.

(** When the scan returns, its conversion calls are those of the queries
    to the entries, in order. *)
Lemma get_closest_loop_calls (todo : list BeadColor) :
  Forall entry_ok todo ->
  forall (i : nat) (m : bound) (best : option nat),
    calls (get_closest_loop cs q todo i m best)
    = concat ((fun c => calls (get_distance cs q c)) <$> todo).
Proof.
  induction 1 as [|c todo Hc Htodo IH]; intros i m best; [reflexivity|].
  destruct (entry_distance cs q Hcs Hq c Hc) as (d & Hd & _).
  rewrite fmap_cons. cbn [get_closest_loop concat]. rewrite Hd.
  destruct (lt_bound d m); cbn [calls]; rewrite IH; reflexivity.
Qed.

End SecondScan.

(** What a query leaves in an entry in range, a second query of the same
    space finds and keeps. *)
Lemma get_distance_twice (cs : string) (q q' : RGB) (c : BeadColor) :
  entry_ok c ->
  let c1 := final (get_distance cs q c) in
  final (get_distance cs q' c1) = c1
  /\ (upper cs = "YUV"%string -> calls (get_distance cs q' c1) = [Call_rgb2yuv q'])
  /\ (upper cs = "HSV"%string -> calls (get_distance cs q' c1) = [Call_rgb2hsv q'])
  /\ (upper cs = "RGB"%string -> c1 = c /\ calls (get_distance cs q c) = []).
Proof.
  intros [Hr Hc] c1. destruct (rgb2hsv_total _ Hr) as [t Ht].
  destruct (get_distance_effect cs q c t Hc Ht) as [Hfin Hcalls].
  assert (cache_ok c1) as Hc1 by (apply get_distance_cache_ok; exact Hc).
  assert (rgb c1 = rgb c) as Hrgb by apply get_distance_keeps.
  assert (__rgb2hsv (rgb c1) = inr t) as Ht1 by (rewrite Hrgb; exact Ht).
  destruct (get_distance_effect cs q' c1 t Hc1 Ht1) as [Hfin' Hcalls'].
  rewrite Hfin', Hcalls', Hrgb. fold c1 in Hfin. clear Hfin' Hcalls'.
  destruct (String.eqb_spec (upper cs) "YUV") as [Ey|Ey].
  - rewrite Hfin. split; [reflexivity|]. split; [reflexivity|].
    rewrite Ey. split; discriminate.
  - destruct (String.eqb_spec (upper cs) "HSV") as [Eh|Eh].
    + rewrite Hfin. split; [reflexivity|]. split; [contradiction|].
      split; [reflexivity|]. rewrite Eh. discriminate.
    + split; [reflexivity|]. split; [contradiction|]. split; [contradiction|].
      intros _. split; [exact Hfin|]. rewrite Hcalls. reflexivity.
Qed.

Lemma concat_singletons {A B : Type} (f : A -> B) (l : list A) :
  concat ((fun x => [f x]) <$> l) = f <$> l.
Proof.
  induction l as [|x l IH]; [reflexivity|].
  rewrite !fmap_cons. cbn [concat]. rewrite IH. reflexivity.
Qed.

(** X9. On a palette in range, with a valid tag and queries in range: a
    scan fills the caches of its space for every entry, so a second scan
    in the same space leaves the palette exactly as the first left it and
    converts nothing but its query, once per entry; a scan in RGB space
    leaves the palette as it was and converts nothing at all. *)
Theorem get_closest_second_scan
    (palette : BeadPalette) (cs : string) (q q' : RGB) :
  Forall entry_ok palette -> valid_tag cs -> in_range q -> in_range q' ->
  let p1 := final (get_closest cs q palette) in
  final (get_closest cs q' p1) = p1
  /\ (upper cs = "YUV"%string ->
      calls (get_closest cs q' p1) = (fun _ => Call_rgb2yuv q') <$> palette)
  /\ (upper cs = "HSV"%string ->
      calls (get_closest cs q' p1) = (fun _ => Call_rgb2hsv q') <$> palette)
  /\ (upper cs = "RGB"%string ->
      p1 = palette /\ calls (get_closest cs q palette) = []).
Proof.
  intros Hp Hcs Hq Hq' p1.
  assert (Forall entry_ok p1) as Hp1 by apply get_closest_loop_entry_ok, Hp.
  assert (p1 = (fun c => final (get_distance cs q c)) <$> palette) as Ep1
    by (apply get_closest_final; assumption).
  unfold get_closest.
  rewrite (get_closest_loop_final cs q' Hcs Hq' p1 Hp1).
  rewrite (get_closest_loop_calls cs q' Hcs Hq' p1 Hp1).
  rewrite (get_closest_loop_calls cs q Hcs Hq palette Hp).
  fold (get_closest cs q palette). fold p1. rewrite Ep1.
  rewrite <- !list_fmap_compose.
  split; [|split; [|split]].
  - apply list_fmap_ext. intros j c Hj. simpl.
    pose proof (Forall_lookup_1 _ _ _ _ Hp Hj) as Hc.
    apply (get_distance_twice cs q q' c Hc).
  - intros H. rewrite <- (concat_singletons (fun _ => Call_rgb2yuv q')).
    f_equal. apply list_fmap_ext. intros j c Hj. simpl.
    pose proof (Forall_lookup_1 _ _ _ _ Hp Hj) as Hc.
    apply (get_distance_twice cs q q' c Hc). exact H.
  - intros H. rewrite <- (concat_singletons (fun _ => Call_rgb2hsv q')).
    f_equal. apply list_fmap_ext. intros j c Hj. simpl.
    pose proof (Forall_lookup_1 _ _ _ _ Hp Hj) as Hc.
    apply (get_distance_twice cs q q' c Hc). exact H.
  - intros H. split.
    + rewrite <- (list_fmap_id palette) at 2.
      apply list_fmap_ext. intros j c Hj. simpl.
      pose proof (Forall_lookup_1 _ _ _ _ Hp Hj) as Hc.
      apply (get_distance_twice cs q q' c Hc). exact H.
    + clear p1 Hp1 Ep1. induction Hp as [|c l Hc Hl IH]; [reflexivity|].
      rewrite fmap_cons. cbn [concat].
      destruct (get_distance_twice cs q q' c Hc) as (_ & _ & _ & Hrgb).
      destruct (Hrgb H) as [_ ->]. apply IH.
Qed.

Lemma get_closest_second_scan_witness :
  final (get_closest "yuv" (1, 2, 3)
           (final (get_closest "yuv" (250, 5, 5) red_blue)))
  = final (get_closest "yuv" (250, 5, 5) red_blue)
  /\ calls (get_closest "yuv" (1, 2, 3)
              (final (get_closest "yuv" (250, 5, 5) red_blue)))
     = [Call_rgb2yuv (1, 2, 3); Call_rgb2yuv (1, 2, 3)].
Proof.
  destruct (get_closest_second_scan red_blue "yuv" (250, 5, 5) (1, 2, 3))
    as (Hfin & Hy & _).
  - exact red_blue_ok.
  - right. left. reflexivity.
  - simpl. lia.
  - simpl. lia.
  - split; [exact Hfin|]. apply Hy. reflexivity.
Defined.

(** ** The pixel loop of main *)

Lemma for_each_app {A : Type} (l1 l2 : list A)
    (body : A -> loop_state -> option main_exn * loop_state) (s : loop_state) :
  for_each (l1 ++ l2) body s
  = match for_each l1 body s with
    | (Some e, s') => (Some e, s')
    | (None, s') => for_each l2 body s'
    end.
Proof.
  revert s. induction l1 as [|a l1 IH]; intros s; [reflexivity|].
  simpl. destruct (body a s) as [[e|] s']; [reflexivity|apply IH].
Qed.

Lemma for_each_row (color : string) (getpixel : nat -> nat -> RGBA)
    (y : nat) (xs : list nat) (s : loop_state) :
  for_each xs (fun x => pixel color getpixel y x) s
  = for_each (x ← xs; [(x, y)])
      (fun xy => pixel color getpixel xy.2 xy.1) s.
Proof.
  revert s. induction xs as [|x xs IH]; intros s; [reflexivity|].
  cbn [for_each mbind list_bind app fst snd].
  destruct (pixel color getpixel y x s) as [[e|] s']; [reflexivity|].
  apply IH.
Qed.

(** The nested loops visit the pixels row by row. *)
Lemma main_loop_flat (color : string) (width height : nat)
    (getpixel : nat -> nat -> RGBA) (palette : option BeadPalette) :
  main_loop color width height getpixel palette
  = for_each (coords width height)
      (fun xy => pixel color getpixel xy.2 xy.1) (palette, []).
Proof.
  unfold main_loop, coords. generalize (palette, @nil draw_call) as s.
  generalize (seq 0 height) as ys. generalize (seq 0 width) as xs.
  intros xs ys. induction ys as [|y ys IH]; intros s; [reflexivity|].
  cbn [for_each mbind list_bind]. rewrite for_each_app, <- for_each_row.
  destruct (for_each xs (fun x => pixel color getpixel y x) s) as [[e|] s'];
    [reflexivity|apply IH].
Qed.

Lemma pixel_transparent (color : string) (getpixel : nat -> nat -> RGBA)
    (x y : nat) (s : loop_state) :
  (getpixel x y).2 = 0 -> pixel color getpixel y x s = (None, s).
Proof.
  unfold pixel. destruct (getpixel x y) as [[[r g] b] a]. simpl.
  intros ->. reflexivity.
Qed.

(** A loop whose body fails at every opaque pixel, the state untouched,
    fails at the first one, if there is one. *)
Lemma for_each_fails (color : string) (getpixel : nat -> nat -> RGBA)
    (e : main_exn) (s : loop_state) (l : list (nat * nat)) :
  (forall x y, (getpixel x y).2 <> 0 ->
               pixel color getpixel y x s = (Some e, s)) ->
  for_each l (fun xy => pixel color getpixel xy.2 xy.1) s
  = (match List.filter (fun xy => negb ((getpixel xy.1 xy.2).2 =? 0)) l with
     | [] => None
     | _ :: _ => Some e
     end, s).
Proof.
  intros Hfail. induction l as [|[x y] l IH]; [reflexivity|].
  cbn [for_each List.filter fst snd].
  destruct (Z.eqb_spec (getpixel x y).2 0) as [E|E].
  - rewrite (pixel_transparent _ _ _ _ _ E). exact IH.
  - rewrite (Hfail x y E). reflexivity.
Qed.

(** X10. With a palette that has no entry, [main] fails with an
    [AttributeError] at the first pixel that is not fully transparent,
    whatever the colour-space tag, before anything is drawn; on an image
    with no such pixel it draws nothing and does not fail. *)
Theorem main_loop_empty_palette (color : string) (width height : nat)
    (getpixel : nat -> nat -> RGBA) :
  main_loop color width height getpixel (Some [])
  = (match opaque width height getpixel with
     | [] => None
     | _ :: _ => Some AttributeError
     end, (Some [], [])).
Proof.
  rewrite main_loop_flat. apply for_each_fails.
  intros x y Ha. unfold pixel.
  destruct (getpixel x y) as [[[r g] b] a]. simpl in Ha.
  destruct (Z.eqb_spec a 0) as [|_]; [contradiction|reflexivity].
Qed.

(** X11. With a palette that has an entry and a tag that names no
    metric, [main] fails with the [ValueError] of [get_distance] at the
    first pixel that is not fully transparent, with nothing drawn and the
    palette untouched; on an image with no such pixel the tag is never
    looked at. *)
Theorem main_loop_unknown_tag (color : string) (width height : nat)
    (getpixel : nat -> nat -> RGBA) (palette : BeadPalette) :
  ~ valid_tag color -> palette <> [] ->
  main_loop color width height getpixel (Some palette)
  = (match opaque width height getpixel with
     | [] => None
     | _ :: _ => Some (Raised ValueError)
     end, (Some palette, [])).
Proof.
  intros Htag Hne. rewrite main_loop_flat. apply for_each_fails.
  intros x y Ha. unfold pixel.
  destruct (getpixel x y) as [[[r g] b] a]. simpl in Ha.
  destruct (Z.eqb_spec a 0) as [|_]; [contradiction|].
  destruct palette as [|c palette]; [contradiction|]. cbn [fst snd].
  rewrite (get_closest_unknown_cons _ _ _ _ Htag). reflexivity.
Qed.

Lemma main_loop_unknown_tag_witness :
  main_loop "XYZ" 1 1 one_white (Some red_blue)
  = (Some (Raised ValueError), (Some red_blue, [])).
Proof.
  apply (main_loop_unknown_tag "XYZ" 1 1 one_white red_blue).
  - exact not_valid_XYZ.
  - discriminate.
Defined.

Lemma draw_bead_ext (x y : Z) (c c' : BeadColor) :
  name c = name c' -> rgb c = rgb c' -> draw_bead x y c = draw_bead x y c'.
Proof.
  intros Hn Hr. unfold draw_bead, get_textcolor. rewrite Hn, Hr. reflexivity.
Qed.

(** X12. Without a palette [main] never fails and never looks at the
    colour-space tag: every pixel that is not fully transparent is drawn,
    in row order, as a square of its own colour with black outline and an
    empty label, and nothing else is drawn. *)
Theorem main_loop_no_palette (color : string) (width height : nat)
    (getpixel : nat -> nat -> RGBA) :
  main_loop color width height getpixel None
  = (None,
     (None,
      cells getpixel (fun q => Some (BeadColor__init__ "" q))
        (opaque width height getpixel))).
Proof.
  rewrite main_loop_flat. unfold opaque.
  change (cells getpixel (fun q => Some (BeadColor__init__ "" q))
            (List.filter (fun xy => negb ((getpixel xy.1 xy.2).2 =? 0))
               (coords width height)))
    with ([] ++ cells getpixel (fun q => Some (BeadColor__init__ "" q))
            (List.filter (fun xy => negb ((getpixel xy.1 xy.2).2 =? 0))
               (coords width height))).
  generalize (@nil draw_call) as drawn.
  induction (coords width height) as [|[x y] l IH]; intros drawn.
  - simpl. rewrite app_nil_r. reflexivity.
  - cbn [for_each List.filter fst snd].
    destruct (Z.eqb_spec (getpixel x y).2 0) as [E|E].
    + rewrite (pixel_transparent _ _ _ _ _ E). apply IH.
    + unfold pixel. destruct (getpixel x y) as [[[r g] b] a] eqn:Ep.
      simpl in E. destruct (Z.eqb_spec a 0) as [|_]; [contradiction|].
      cbn [fst snd negb]. rewrite IH.
      unfold cells. cbn [mbind list_bind fst snd]. rewrite Ep.
      cbn [fst]. rewrite <- app_assoc. reflexivity.
Qed.

Lemma same_beads_refl (p : list BeadColor) :
  Forall cache_ok p -> same_beads p p.
Proof. induction 1; constructor; auto. Qed.

Lemma same_beads_trans (p1 p2 p3 : list BeadColor) :
  same_beads p1 p2 -> same_beads p2 p3 -> same_beads p1 p3.
Proof.
  intros H12. revert p3. induction H12 as [|a b l1 l2 Hab _ IH]; intros p3 H23.
  - inversion H23. constructor.
  - inversion H23 as [|b' c l2' l3 Hbc Hl]; subst.
    constructor; [|apply IH; assumption].
    destruct Hab as (N1 & R1 & C1 & C2), Hbc as (N2 & R2 & C3 & C4).
    split; [congruence|]. split; [congruence|]. split; assumption.
Qed.

Lemma get_closest_same_beads (cs : string) (q : RGB) (p : list BeadColor) :
  Forall cache_ok p -> same_beads (final (get_closest cs q p)) p.
Proof.
  intros Hp. unfold get_closest. generalize 0%nat PosInf (@None nat).
  induction Hp as [|c p Hc Hp IH]; intros i m best; [constructor|].
  assert (name (final (get_distance cs q c)) = name c
          /\ rgb (final (get_distance cs q c)) = rgb c
          /\ cache_ok (final (get_distance cs q c)) /\ cache_ok c) as Hrel.
  { destruct (get_distance_keeps cs q c) as [Kn Kr].
    split; [exact Kn|]. split; [exact Kr|].
    split; [apply get_distance_cache_ok|]; exact Hc. }
  cbn [get_closest_loop]. destruct (value (get_distance cs q c)) as [e|d].
  - cbn [final]. constructor; [exact Hrel|apply same_beads_refl; exact Hp].
  - destruct (lt_bound d m); cbn [final]; (constructor; [exact Hrel|apply IH]).
Qed.

Lemma same_beads_value (cs : string) (q : RGB) (p p' : list BeadColor) :
  same_beads p p' ->
  value (get_closest cs q p) = value (get_closest cs q p').
Proof.
  intros H. apply get_closest_loop_ext.
  eapply Forall2_impl; [exact H|]. intros c c' (_ & ? & ? & ?). auto.
Qed.

Lemma same_beads_cache_ok (p p' : list BeadColor) :
  same_beads p p' -> Forall cache_ok p.
Proof. induction 1 as [|c c' l l' (_ & _ & Hc & _) _ IH]; constructor; auto. Qed.

Lemma same_beads_lookup (p p' : list BeadColor) (i : nat) (c' : BeadColor) :
  same_beads p p' -> p' !! i = Some c' ->
  exists c, p !! i = Some c /\ name c = name c' /\ rgb c = rgb c'.
Proof.
  intros H Hi. destruct (Forall2_lookup_r _ _ _ _ _ H Hi) as (c & Hc & Hn & Hr & _).
  exists c. auto.
Qed.

Section Beads.
Variables (color : string) (getpixel : nat -> nat -> RGBA).
Variable palette : BeadPalette.
Hypothesis Hne : palette <> [].
Hypothesis Hp : Forall entry_ok palette.
Hypothesis Hcolor : valid_tag color.

(** On the data model's domain every colour gets a bead of the palette. *)
Lemma bead_of_some (q : RGB) :
  in_range q ->
  exists (i : nat) (c : BeadColor),
    value (get_closest color q palette) = inr (Some i)
    /\ palette !! i = Some c /\ bead_of palette color q = Some c.
Proof.
  intros Hq.
  destruct (get_closest_spec color q palette Hne Hp Hcolor Hq)
    as (i & c & d & Hres & Hi & _).
  exists i, c. unfold bead_of. rewrite Hres. auto.
Qed.

(** The loop over any list of pixels, from any state of the palette. *)
Lemma for_each_beads (l : list (nat * nat)) :
  Forall (fun xy => (getpixel xy.1 xy.2).2 <> 0 ->
                    in_range (getpixel xy.1 xy.2).1) l ->
  forall (p : list BeadColor) (drawn : list draw_call),
    same_beads p palette ->
    exists p',
      for_each l (fun xy => pixel color getpixel xy.2 xy.1) (Some p, drawn)
      = (None,
         (Some p',
          drawn ++ cells getpixel (bead_of palette color)
                     (List.filter
                        (fun xy => negb ((getpixel xy.1 xy.2).2 =? 0)) l)))
      /\ same_beads p' palette.
Proof.
  induction 1 as [|[x y] l Hxy Hl IH]; intros p drawn Hsame.
  - exists p. simpl. rewrite app_nil_r. auto.
  - cbn [for_each List.filter fst snd]. cbn [fst snd] in Hxy.
    destruct (Z.eqb_spec (getpixel x y).2 0) as [E|E].
    + rewrite (pixel_transparent _ _ _ _ _ E). apply IH. exact Hsame.
    + pose proof (Hxy E) as Hq. unfold pixel at 1.
      destruct (getpixel x y) as [[[r g] b] a] eqn:Ep.
      cbn [fst snd] in E, Hq.
      destruct (Z.eqb_spec a 0) as [|_]; [contradiction|]. cbn [fst snd negb].
      destruct (bead_of_some (r, g, b) Hq) as (i & c & Hres & Hi & Hbead).
      rewrite (same_beads_value color (r, g, b) p palette Hsame), Hres.
      cbn [mbind option_bind].
      pose proof (get_closest_same_beads color (r, g, b) p
                    (same_beads_cache_ok _ _ Hsame)) as Hfin.
      pose proof (same_beads_trans _ _ _ Hfin Hsame) as Hfin'.
      destruct (same_beads_lookup _ _ i c Hfin' Hi) as (c1 & Hc1 & Hn & Hr).
      rewrite Hc1.
      destruct (IH (final (get_closest color (r, g, b) p))
                  (drawn ++ draw_bead (Z.of_nat x) (Z.of_nat y) c1) Hfin')
        as (p' & Hloop & Hsame').
      exists p'. split; [|exact Hsame']. rewrite Hloop.
      unfold cells at 2. cbn [mbind list_bind fst snd]. rewrite Ep.
      cbn [fst]. rewrite Hbead, (draw_bead_ext _ _ c1 c Hn Hr).
      rewrite <- app_assoc. reflexivity.
Qed.

End Beads.

Lemma elem_of_coords (width height x y : nat) :
  (x, y) ∈ coords width height <-> (x < width)%nat /\ (y < height)%nat.
Proof.
  unfold coords. rewrite list_elem_of_bind. split.
  - intros (y' & Hin & Hy). apply list_elem_of_bind in Hin as (x' & Hin & Hx).
    apply list_elem_of_singleton in Hin as [= -> ->].
    apply elem_of_seq in Hx, Hy. lia.
  - intros [Hx Hy]. exists y. split; [|apply elem_of_seq; lia].
    apply list_elem_of_bind. exists x.
    split; [apply list_elem_of_singleton; reflexivity|apply elem_of_seq; lia].
Qed.

Lemma same_beads_fmap (p p' : list BeadColor) :
  same_beads p p' -> name <$> p = name <$> p' /\ rgb <$> p = rgb <$> p'.
Proof.
  induction 1 as [|c c' l l' (Hn & Hr & _) _ [IHn IHr]]; [auto|].
  rewrite !fmap_cons, Hn, Hr, IHn, IHr. auto.
Qed.

Lemma cells_length (getpixel : nat -> nat -> RGBA) (f : RGB -> option BeadColor)
    (l : list (nat * nat)) :
  Forall (fun xy => is_Some (f (getpixel xy.1 xy.2).1)) l ->
  length (cells getpixel f l) = (2 * length l)%nat.
Proof.
  induction 1 as [|xy l [c Hc] _ IH]; [reflexivity|].
  unfold cells in *. cbn [mbind list_bind]. rewrite Hc, length_app, IH.
  simpl. lia.
Qed.

(** X13. With a palette of at least one entry, all in range, a valid tag
    and an image whose visible pixels are in range, [main] never fails:
    it draws, row by row, one square and one label per pixel that is not
    fully transparent and nothing else, the square filled with the colour
    and labelled with the name of the entry [get_closest] answers for
    that pixel's colour on the palette as loaded, however many pixels
    came before; the palette keeps its names and colours. *)
Theorem main_loop_beads (color : string) (width height : nat)
    (getpixel : nat -> nat -> RGBA) (palette : BeadPalette) :
  palette <> [] -> Forall entry_ok palette -> valid_tag color ->
  (forall x y, (x < width)%nat -> (y < height)%nat ->
               (getpixel x y).2 <> 0 -> in_range (getpixel x y).1) ->
  exists palette' : BeadPalette,
    main_loop color width height getpixel (Some palette)
    = (None,
       (Some palette',
        cells getpixel (bead_of palette color) (opaque width height getpixel)))
    /\ name <$> palette' = name <$> palette
    /\ rgb <$> palette' = rgb <$> palette
    /\ Forall (fun xy => exists c : BeadColor,
                  bead_of palette color (getpixel xy.1 xy.2).1 = Some c
                  /\ c ∈ palette)
         (opaque width height getpixel)
    /\ length (cells getpixel (bead_of palette color)
                 (opaque width height getpixel))
       = (2 * length (opaque width height getpixel))%nat.
Proof.
  intros Hne Hp Hcolor Hpix.
  assert (Forall (fun xy => (getpixel xy.1 xy.2).2 <> 0 ->
                            in_range (getpixel xy.1 xy.2).1)
            (coords width height)) as Hall.
  { apply Forall_forall. intros [x y] Hin. apply elem_of_coords in Hin as [Hx Hy].
    apply Hpix; assumption. }
  assert (Forall cache_ok palette) as Hcache
    by (eapply Forall_impl; [exact Hp|intros c [_ Hc]; exact Hc]).
  destruct (for_each_beads color getpixel palette Hne Hp Hcolor
              (coords width height) Hall palette [] (same_beads_refl _ Hcache))
    as (p' & Hloop & Hsame).
  assert (Forall (fun xy => exists c : BeadColor,
                    bead_of palette color (getpixel xy.1 xy.2).1 = Some c
                    /\ c ∈ palette)
            (opaque width height getpixel)) as Hbeads.
  { apply Forall_forall. intros [x y] Hin. unfold opaque in Hin.
    apply list_elem_of_In, filter_In in Hin as [Hin Hop].
    apply list_elem_of_In in Hin.
    rewrite Forall_forall in Hall. specialize (Hall _ Hin). cbn [fst snd] in *.
    destruct (Z.eqb_spec (getpixel x y).2 0) as [|Ea]; [discriminate|].
    destruct (bead_of_some color palette Hne Hp Hcolor _ (Hall Ea))
      as (i & c & _ & Hi & Hb).
    exists c. split; [exact Hb|]. eapply list_elem_of_lookup_2. exact Hi. }
  exists p'. rewrite main_loop_flat, Hloop.
  destruct (same_beads_fmap _ _ Hsame) as [Hn Hr].
  split; [reflexivity|]. split; [exact Hn|]. split; [exact Hr|].
  split; [exact Hbeads|]. apply cells_length.
  eapply Forall_impl; [exact Hbeads|]. intros xy (c & Hc & _). exists c. exact Hc.
Qed.

Lemma main_loop_beads_witness :
  exists palette' : BeadPalette,
    main_loop "rgb" 1 1 one_white (Some red_blue)
    = (None,
       (Some palette',
        cells one_white (bead_of red_blue "rgb") (opaque 1 1 one_white)))
    /\ length (cells one_white (bead_of red_blue "rgb") (opaque 1 1 one_white))
       = 2%nat.
Proof.
  destruct (main_loop_beads "rgb" 1 1 one_white red_blue)
    as (p' & Hloop & _ & _ & _ & Hlen).
  - discriminate.
  - exact red_blue_ok.
  - left. reflexivity.
  - intros x y _ _ _. simpl. lia.
  - exists p'. split; [exact Hloop|exact Hlen].
Defined.

(** ** The output file name *)


Lemma append_length (a b : string) :
  String.length (a ++ b) = (String.length a + String.length b)%nat.
Proof. induction a as [|x a IH]; simpl; [reflexivity|rewrite IH; reflexivity]. Qed.

Lemma append_inv_head (a b c : string) : (a ++ b = a ++ c)%string -> b = c.
Proof. induction a as [|x a IH]; simpl; [auto|]. intros [= H]. auto. Qed.

Lemma append_inv_tail (a b c : string) : (a ++ c = b ++ c)%string -> a = b.
Proof.
  revert b. induction a as [|x a IH]; intros [|y b] H; simpl in H.
  - reflexivity.
  - apply (f_equal String.length) in H. simpl in H.
    rewrite append_length in H. lia.
  - apply (f_equal String.length) in H. simpl in H.
    rewrite append_length in H. lia.
  - injection H as -> H. f_equal. apply IH. exact H.
Qed.

(** X14. The output file is never the input file, and two runs on the
    same image write the same file exactly when both or neither have a
    palette and their tags are equal once lowered: tags that differ in
    letter case only overwrite each other's output, all others do not. *)
Theorem output_filename_distinct (root ext : string)
    (p1 p2 : option BeadPalette) (c1 c2 : string) :
  output_filename (root, ext) p1 c1 <> (root ++ ext)%string
  /\ (output_filename (root, ext) p1 c1 = output_filename (root, ext) p2 c2
      <-> (is_Some p1 <-> is_Some p2) /\ lower c1 = lower c2).
Proof.
  unfold output_filename. cbn [fst snd]. split.
  - intros H. apply append_inv_head in H.
    apply (f_equal String.length) in H. rewrite !append_length in H.
    simpl in H. lia.
  - split.
    + intros H. apply append_inv_head in H.
      destruct p1 as [l1|], p2 as [l2|]; simpl in H.
      * injection H as H. apply append_inv_tail in H.
        split; [split; intros _; eexists; reflexivity|exact H].
      * discriminate.
      * discriminate.
      * injection H as H. apply append_inv_tail in H.
        split; [|exact H]. split; intros [x Hx]; discriminate.
    + intros [Hp ->]. destruct p1 as [l1|], p2 as [l2|]; try reflexivity.
      * destruct (proj1 Hp (ex_intro _ l1 eq_refl)) as [x Hx]. discriminate.
      * destruct (proj2 Hp (ex_intro _ l2 eq_refl)) as [x Hx]. discriminate.
Qed.

(** ** Reading the palette file *)

Lemma append_nil_r (s : string) : (s ++ "")%string = s.
Proof. induction s as [|c s IH]; simpl; [reflexivity|rewrite IH; reflexivity]. Qed.



Lemma lstrip_app_all (f : ascii -> bool) (p s : string) :
  all f p = true -> lstrip f (p ++ s) = lstrip f s.
Proof.
  induction p as [|c p IH]; simpl; [reflexivity|].
  intros H. apply andb_true_iff in H as [-> Hp]. apply IH. exact Hp.
Qed.



























Lemma int_raises (max_str_digits : nat) (x : string) (e : exn) :
  int max_str_digits x = inl e -> e = ValueError.
Proof.
  unfold int.
  destruct (match rstrip int_space (lstrip int_space x) with
            | String "-" t => (true, t)
            | String "+" t => (false, t)
            | _ => (false, rstrip int_space (lstrip int_space x))
            end) as [negative [|c body]]; [congruence|].
  destruct (isdigit c); [|congruence].
  destruct (int_digits body (digit c) 1) as [[v n]|]; [|congruence].
  destruct (_ && _); congruence.
Qed.

Lemma tuple_int_raises (max_str_digits : nat) (l : list string) (e : exn) :
  tuple_int max_str_digits l = inl e -> e = ValueError.
Proof.
  induction l as [|x l IH]; simpl; [discriminate|].
  destruct (int max_str_digits x) as [e'|z] eqn:E.
  - intros [= <-]. apply (int_raises _ _ _ E).
  - destruct (tuple_int max_str_digits l) as [e'|zs]; [|discriminate].
    intros [= <-]. apply IH. reflexivity.
Qed.

Lemma load_loop_spec (max_str_digits : nat) (items : list (string * string)) :
  forall palette : list loaded,
    match load_loop max_str_digits items palette with
    | inr beads =>
        exists new : list loaded,
          beads = palette ++ new
          /\ Forall2 (fun kv b => b.1 = kv.1
                                  /\ rgb_of_value max_str_digits kv.2 = inr b.2)
               items new
    | inl e =>
        e = ValueError
        /\ Exists (fun kv => rgb_of_value max_str_digits kv.2 = inl ValueError)
             items
    end.
Proof.
  induction items as [|[key v] items IH]; intros palette.
  - exists []. rewrite app_nil_r. split; [reflexivity|constructor].
  - cbn [load_loop].
    destruct (rgb_of_value max_str_digits v) as [e|t] eqn:E.
    + pose proof (tuple_int_raises _ _ _ E) as ->.
      split; [reflexivity|]. left. exact E.
    + specialize (IH (palette ++ [(key, t)])).
      destruct (load_loop max_str_digits items (palette ++ [(key, t)]))
        as [e|beads].
      * destruct IH as [-> Hex]. split; [reflexivity|]. right. exact Hex.
      * destruct IH as (new & -> & Hnew). exists ((key, t) :: new).
        rewrite <- app_assoc. split; [reflexivity|].
        constructor; [split; [reflexivity|exact E]|exact Hnew].
Qed.


(** The palette file of two lines, one with a comment, loads as the
    palette of red and blue. *)
Example load_red_blue :
  load_color_palette 4300
    [("red", "255,0,0"); ("blue", "0,0,255  # note")]%string
  = inr [("red"%string, [255; 0; 0]); ("blue"%string, [0; 0; 255])]
  /\ mapM bead [("red"%string, [255; 0; 0]); ("blue"%string, [0; 0; 255])]
     = Some red_blue.
Proof. split; reflexivity. Qed.

Lemma int_blank (max_str_digits : nat) (x : string) :
  all int_space x = true -> int max_str_digits x = inl ValueError.
Proof.
  intros H. unfold int.
  rewrite <- (append_nil_r x), (lstrip_app_all _ _ _ H). reflexivity.
Qed.

Lemma tuple_int_blank (max_str_digits : nat) (l : list string) :
  Exists (fun x => all int_space x = true) l ->
  tuple_int max_str_digits l = inl ValueError.
Proof.
  induction 1 as [x l Hx|x l Hl IH]; cbn [tuple_int].
  - rewrite (int_blank _ _ Hx). reflexivity.
  - destruct (int max_str_digits x) as [e|z] eqn:E.
    + rewrite (int_raises _ _ _ E). reflexivity.
    + rewrite IH. reflexivity.
Qed.

(** X17. A value with a component that is empty or blank makes the load
    fail with [ValueError]: a value with nothing before the comment, a
    comma at either end, two commas in a row. *)
Theorem rgb_of_value_blank (max_str_digits : nat) (v : string) :
  Exists (fun x => all int_space x = true)
    (split "," (rstrip isspace (before "#" v))) ->
  rgb_of_value max_str_digits v = inl ValueError
  /\ forall (key : string) (items items' : list (string * string)),
       (exists e, load_color_palette max_str_digits
                    (items ++ (key, v) :: items') = inl e).
Proof.
  intros H. pose proof (tuple_int_blank max_str_digits _ H) as E.
  split; [exact E|]. intros key items items'.
  pose proof (load_loop_spec max_str_digits (items ++ (key, v) :: items') [])
    as Hspec.
  unfold load_color_palette.
  destruct (load_loop max_str_digits (items ++ (key, v) :: items') [])
    as [e|beads]; [eauto|].
  exfalso. destruct Hspec as (new & _ & Hnew).
  apply Forall2_app_inv_l in Hnew as (k1 & k2 & _ & Hk2 & _).
  inversion Hk2 as [|? b ? ? [_ Hb] _]; subst. cbn [snd] in Hb.
  unfold rgb_of_value in Hb. congruence.
Qed.

Lemma rgb_of_value_blank_witness :
  rgb_of_value 4300 "255,0,  # blue missing" = inl ValueError.
Proof.
  apply (rgb_of_value_blank 4300 "255,0,  # blue missing").
  right. right. left. reflexivity.
Defined.
